(** * libbitcoin: seeding session and getx responder

    A shallow embedding of [src/network/session_seed.cpp] and of the
    interface declared in [include/bitcoin/getx_responder.hpp].

    The session code is callback driven.  Closures are represented by
    first-order values ([handler], [stage]); the shared counters of the
    synchronizers live in an explicit store, so that the copies of one
    synchronizer held by several seeds alias the same counter, as the
    [shared_ptr] copies do in the source. *)

From stdpp Require Import base list strings pretty.

(** ** Result codes *)

(** Modelled from the spec: [error.hpp] is not among the sources.  The
    constructors follow the taxonomy of section 7 (ConnectError,
    HandshakeError, NotFound, OperationFailed) plus [success]; the
    [detail] of a transport or handshake error stands for the various
    concrete codes (timeout, refused, ...). *)
Inductive code : Type :=
| success
| operation_failed
| connect_error (detail : nat)
| handshake_error (detail : nat)
| not_found.

#[global] Instance code_eq_dec : EqDecision code.
Proof. solve_decision. Defined.

(** [if (ec)]: a [code] converts to [true] exactly when it is not
    [success]. *)
Definition is_error (ec : code) : bool :=
  match ec with
  | success => false
  | _ => true
  end.

(** ** Configuration values *)

(** The port is a [uint16_t]. *)
Record endpoint : Type := { host : string; port : N }.

#[global] Instance endpoint_eq_dec : EqDecision endpoint.
Proof. solve_decision. Defined.

(** [config::endpoint::to_string]. *)
Definition to_string (e : endpoint) : string :=
  host e +:+ ":" +:+ pretty (port e).

(** [session_seed::mainnet]. *)
Definition mainnet : list endpoint :=
  [ {| host := "seed.bitnodes.io"; port := 8333%N |};
    {| host := "seed.bitcoinstats.com"; port := 8333%N |};
    {| host := "seed.bitcoin.sipa.be"; port := 8333%N |};
    {| host := "dnsseed.bluematt.me"; port := 8333%N |};
    {| host := "seed.bitcoin.jonasschnelli.ch"; port := 8333%N |};
    {| host := "dnsseed.bitcoin.dashjr.org"; port := 8333%N |} ].

(** [session_seed::testnet]. *)
Definition testnet : list endpoint :=
  [ {| host := "testnet-seed.alexykot.me"; port := 18333%N |};
    {| host := "testnet-seed.bitcoin.petertodd.org"; port := 18333%N |};
    {| host := "testnet-seed.bluematt.me"; port := 18333%N |};
    {| host := "testnet-seed.bitcoin.schildbach.de"; port := 18333%N |} ].

Record timeout : Type :=
  { handshake : nat; heartbeat : nat; germination : nat }.

(** A channel handle ([channel::ptr]) and a [message::network_address]
    are opaque to the session; they are identified by a number. *)
Definition channel : Type := nat.
Definition network_address : Type := nat.

(** The members of [session_seed] that are plain values.  [hosts_] is a
    reference to shared mutable state and lives in the [world]. *)
Record session_seed : Type :=
  { timeouts_ : timeout;
    seeds_ : list endpoint;
    self_ : network_address }.

(** ** Handlers *)

(** The [handler] closures ([std::function<void(const code&)>]) that the
    session builds:
    - [caller_complete]: the handler passed to [start] by its caller;
    - [bound_handle_stopped n h]:
      [std::bind(&session_seed::handle_stopped, this, n, h)];
      the bind has no placeholder, so the code it is invoked with is
      dropped;
    - [synchronizer c k name suppress h]: the result of
      [synchronize(h, k, name, suppress)], whose shared counter is cell
      [c] of the store. *)
Inductive handler : Type :=
| caller_complete
| bound_handle_stopped (host_start_size : nat) (complete : handler)
| synchronizer (counter : nat) (clearance_count : nat) (name : string)
    (suppress_errors : bool) (next : handler).

#[global] Instance handler_eq_dec : EqDecision handler.
Proof. solve_decision. Defined.

(** The protocols the session attaches to a channel, with the arguments
    their constructors receive from the session. *)
Inductive protocol : Type :=
| protocol_version (peer : channel) (deadline : nat) (self : network_address)
    (blockchain_height : nat) (relay : bool)
| protocol_ping (peer : channel) (period : nat)
| protocol_seed (peer : channel) (deadline : nat) (complete : handler)
    (self : network_address).

#[global] Instance protocol_eq_dec : EqDecision protocol.
Proof. solve_decision. Defined.

(** The handlers of the session that a protocol object is given.  The
    callback of [protocol_version] is not a [handler] value: it is the
    delegate to [handle_handshake], recorded by the [handshaking] stage
    below. *)
Definition protocol_handlers (p : protocol) : list handler :=
  match p with
  | protocol_version _ _ _ _ _ => []
  | protocol_ping _ _ => []
  | protocol_seed _ _ complete _ => [complete]
  end.

(** What the session does to its collaborators and to its caller, in
    program order. *)
Inductive action : Type :=
| act_connect (h : string) (p : N)
| act_attach (p : protocol)
| act_channel_start (peer : channel)
| act_complete (ec : code).

#[global] Instance action_eq_dec : EqDecision action.
Proof. solve_decision. Defined.

(** ** Shared state *)

(** Modelled from the spec: [hosts.hpp] is not among the sources.
    Section 3: the host set exposes capacity (max size), current size and
    insert.  Only the two numbers matter to the session. *)
Record hosts : Type := { capacity : nat; size : nat }.

(** Modelled from the spec: inserting [k] new addresses grows the size by
    [k], but not beyond the capacity (the max size); an insert never
    shrinks the set. *)
Definition hosts_insert (k : nat) (h : hosts) : hosts :=
  {| capacity := capacity h;
     size := Nat.max (size h) (Nat.min (size h + k) (capacity h)) |}.

(** Modelled from the spec: the mutable part of a CompletionToken
    (section 3): the signals still awaited, and the first non-success
    outcome observed. *)
Record token : Type := { remaining : nat; first_error : option code }.

Record world : Type :=
  { hosts_ : hosts;
    counters : list token;
    faults : nat;
    trace : list action }.

Definition emit (a : action) (w : world) : world :=
  {| hosts_ := hosts_ w; counters := counters w; faults := faults w;
     trace := trace w ++ [a] |}.

Definition set_counter (c : nat) (t : token) (w : world) : world :=
  {| hosts_ := hosts_ w; counters := <[c := t]> (counters w);
     faults := faults w; trace := trace w |}.

Definition fault (w : world) : world :=
  {| hosts_ := hosts_ w; counters := counters w; faults := S (faults w);
     trace := trace w |}.

Definition store (k : nat) (w : world) : world :=
  {| hosts_ := hosts_insert k (hosts_ w); counters := counters w;
     faults := faults w; trace := trace w |}.

(** ** The join combinator *)

(** Modelled from the spec: [utility/synchronizer.hpp] is not among the
    sources.  Section 4.1: [create(expectedCount, handler, policy)]
    returns a token.  The new counter is a fresh cell of the store. *)
Definition synchronize (h : handler) (clearance_count : nat) (name : string)
    (suppress_errors : bool) (w : world) : handler * world :=
  (synchronizer (length (counters w)) clearance_count name suppress_errors h,
   {| hosts_ := hosts_ w;
      counters := counters w ++ [ {| remaining := clearance_count;
                                     first_error := None |} ];
      faults := faults w; trace := trace w |}).

(** The first non-success outcome observed so far. *)
Definition observe (seen : option code) (ec : code) : option code :=
  match seen with
  | Some e => Some e
  | None => if is_error ec then Some ec else None
  end.

(** The outcome a join hands to its handler: nothing of the individual
    outcomes under the suppressing policy, the first error otherwise. *)
Definition combined (suppress_errors : bool) (seen : option code) : code :=
  if suppress_errors then success else default success seen.

(** Invoking a handler.

    Modelled from the spec for the [synchronizer] case (section 4.1):
    [signal(token, outcome)] decrements the counter; when it reaches zero
    the handler is invoked, once; signalling a token whose counter is
    already zero is a programming error that is detected ([fault]) and
    invokes nothing.

    The [bound_handle_stopped] case is the body of
    [session_seed::handle_stopped] (see [handle_stopped] below). *)
Fixpoint invoke (h : handler) (ec : code) (w : world) : world :=
  match h with
  | caller_complete => emit (act_complete ec) w
  | bound_handle_stopped host_start_size complete =>
      if host_start_size <? size (hosts_ w)
      then invoke complete success w
      else invoke complete operation_failed w
  | synchronizer c _ _ suppress_errors next =>
      match counters w !! c with
      | None => fault w
      | Some t =>
          match remaining t with
          | 0 => fault w
          | S r =>
              let seen := observe (first_error t) ec in
              let w' := set_counter c {| remaining := r; first_error := seen |} w in
              match r with
              | 0 => invoke next (combined suppress_errors seen) w'
              | S _ => w'
              end
          end
      end
  end.

(** ** session_seed *)

(** The callback a collaborator holds for one seed, that is, the point
    its pipeline has reached:
    - [connecting]: the connector holds the bound [handle_connected];
    - [handshaking]: [protocol_version] holds the delegate to
      [handle_handshake];
    - [germinating]: [protocol_seed] holds [complete];
    - [finished]: nothing is pending. *)
Inductive stage : Type :=
| connecting (seed : endpoint) (complete : handler)
| handshaking (peer : channel) (seed : endpoint) (complete : handler)
| germinating (peer : channel) (complete : handler)
| finished.

#[global] Instance stage_eq_dec : EqDecision stage.
Proof. solve_decision. Defined.

(** [session_seed::handle_stopped]; the test is
    [hosts_.size() > host_start_size]. *)
Definition handle_stopped (host_start_size : nat) (complete : handler)
    (w : world) : world :=
  if host_start_size <? size (hosts_ w)
  then invoke complete success w
  else invoke complete operation_failed w.

(** [session_seed::start_connect]. *)
Definition start_connect (seed : endpoint) (complete : handler) (w : world)
    : world * stage :=
  (emit (act_connect (host seed) (port seed)) w, connecting seed complete).

(** [session_seed::handle_connected]. *)
Definition handle_connected (s : session_seed) (ec : code) (peer : channel)
    (seed : endpoint) (complete : handler) (w : world) : world * stage :=
  if is_error ec then (invoke complete ec w, finished)
  else
    let relay := false in
    let blockchain_height := 0 in
    let w1 :=
      emit (act_attach (protocol_version peer (handshake (timeouts_ s))
                          (self_ s) blockchain_height relay)) w in
    let w2 := emit (act_channel_start peer) w1 in
    (w2, handshaking peer seed complete).

(** [session_seed::handle_handshake]. *)
Definition handle_handshake (s : session_seed) (ec : code) (peer : channel)
    (seed : endpoint) (complete : handler) (w : world) : world * stage :=
  if is_error ec then (invoke complete ec w, finished)
  else
    let w1 :=
      emit (act_attach (protocol_ping peer (heartbeat (timeouts_ s)))) w in
    let w2 :=
      emit (act_attach (protocol_seed peer (germination (timeouts_ s))
                          complete (self_ s))) w1 in
    (w2, germinating peer complete).

(** The state of one bootstrap: the shared world and, per seed, the
    callback that is pending. *)
Record system : Type := { sys_world : world; sys_pipes : list stage }.

(** The loop of [session_seed::start]. *)
Fixpoint start_seeds (single : handler) (seeds : list endpoint) (y : system)
    : system :=
  match seeds with
  | [] => y
  | seed :: rest =>
      let '(h, w1) := synchronize single 1 (to_string seed) false (sys_world y) in
      let '(w2, st) := start_connect seed h w1 in
      start_seeds single rest
        {| sys_world := w2; sys_pipes := sys_pipes y ++ [st] |}
  end.

(** [session_seed::start]. *)
Definition start (s : session_seed) (complete : handler) (w : world) : system :=
  if bool_decide (seeds_ s = []) || bool_decide (capacity (hosts_ w) = 0)
  then {| sys_world := invoke complete operation_failed w; sys_pipes := [] |}
  else
    let multiple := bound_handle_stopped (size (hosts_ w)) complete in
    let '(single, w1) :=
      synchronize multiple (length (seeds_ s)) "session_seed" true w in
    start_seeds single (seeds_ s) {| sys_world := w1; sys_pipes := [] |}.

(** ** The collaborators' side *)

(** Modelled from the spec: [protocol_seed.hpp] is not among the sources.
    Section 6: the address-exchange stage inserts the discovered addresses
    into the host set before it invokes its callback; [stored] is the
    number of new addresses. *)
Definition protocol_seed_stopped (stored : nat) (ec : code) (complete : handler)
    (w : world) : world :=
  invoke complete ec (store stored w).

(** Modelled from the spec: the connector, [protocol_version] and
    [protocol_seed] are not among the sources.  Sections 6 and 7: each
    stage delivers its result, failures included, through the callback it
    was given.  A delivery is a collaborator firing the callback it holds
    for seed number [i]. *)
Inductive delivery : Type :=
| connected (i : nat) (ec : code) (peer : channel)
| shaken (i : nat) (ec : code)
| seeded (i : nat) (stored : nat) (ec : code).

Definition settle (i : nat) (r : world * stage) (y : system) : system :=
  {| sys_world := r.1; sys_pipes := <[i := r.2]> (sys_pipes y) |}.

(** The session function a delivery runs.  A callback is handed over once
    and fires once: a delivery is enabled only while the matching callback
    is pending. *)
Definition deliver (s : session_seed) (d : delivery) (y : system)
    : option system :=
  match d with
  | connected i ec peer =>
      match sys_pipes y !! i with
      | Some (connecting seed complete) =>
          Some (settle i (handle_connected s ec peer seed complete (sys_world y)) y)
      | _ => None
      end
  | shaken i ec =>
      match sys_pipes y !! i with
      | Some (handshaking peer seed complete) =>
          Some (settle i (handle_handshake s ec peer seed complete (sys_world y)) y)
      | _ => None
      end
  | seeded i stored ec =>
      match sys_pipes y !! i with
      | Some (germinating peer complete) =>
          Some (settle i (protocol_seed_stopped stored ec complete (sys_world y),
                          finished) y)
      | _ => None
      end
  end.

Fixpoint run (s : session_seed) (ds : list delivery) (y : system)
    : option system :=
  match ds with
  | [] => Some y
  | d :: rest =>
      match deliver s d y with
      | Some y' => run s rest y'
      | None => None
      end
  end.

(** The world before a bootstrap. *)
Definition initial (h : hosts) : world :=
  {| hosts_ := h; counters := []; faults := 0; trace := [] |}.

(** One bootstrap attempt followed by the deliveries [ds]. *)
Definition bootstrap (s : session_seed) (h : hosts) (ds : list delivery)
    : option system :=
  run s ds (start s caller_complete (initial h)).

(** ** Observations *)

(** The codes the caller's completion handler was invoked with. *)
Fixpoint completions (t : list action) : list code :=
  match t with
  | [] => []
  | act_complete ec :: rest => ec :: completions rest
  | _ :: rest => completions rest
  end.

(** The connection attempts. *)
Fixpoint connects (t : list action) : list (string * N) :=
  match t with
  | [] => []
  | act_connect h p :: rest => (h, p) :: connects rest
  | _ :: rest => connects rest
  end.

(** The number of seeds whose pipeline has not finished. *)
Fixpoint pending (ps : list stage) : nat :=
  match ps with
  | [] => 0
  | finished :: rest => pending rest
  | _ :: rest => S (pending rest)
  end.

(** The callbacks a pipeline may still have to receive. *)
Definition rank (st : stage) : nat :=
  match st with
  | connecting _ _ => 3
  | handshaking _ _ _ => 2
  | germinating _ _ => 1
  | finished => 0
  end.

Definition ranks (ps : list stage) : nat := sum_list (rank <$> ps).

(** The three points at which a seed signals its slot. *)
Inductive point : Type :=
| connect_failure
| handshake_failure
| exchange_completion.

(** The slot a delivery signals, and from which point. *)
Definition signal_of (d : delivery) : option (nat * point) :=
  match d with
  | connected i ec _ => if is_error ec then Some (i, connect_failure) else None
  | shaken i ec => if is_error ec then Some (i, handshake_failure) else None
  | seeded i _ _ => Some (i, exchange_completion)
  end.

(** The points from which slot [i] is signalled during [ds]. *)
Fixpoint signals (i : nat) (ds : list delivery) : list point :=
  match ds with
  | [] => []
  | d :: rest =>
      match signal_of d with
      | Some (j, p) => if bool_decide (j = i) then p :: signals i rest
                       else signals i rest
      | None => signals i rest
      end
  end.

(** The host set after the inserts of the address exchanges in [ds]. *)
Fixpoint hosts_after (ds : list delivery) (h : hosts) : hosts :=
  match ds with
  | [] => h
  | seeded _ stored _ :: rest => hosts_after rest (hosts_insert stored h)
  | _ :: rest => hosts_after rest h
  end.

(** The aggregate result for a start size and a current size. *)
Definition verdict (host_start_size now : nat) : code :=
  if host_start_size <? now then success else operation_failed.

(** ** The handlers of one bootstrap *)

(** The top-level join that [start] builds when the host set has size
    [size h0] and no synchronizer exists yet: counter [0]. *)
Definition single (s : session_seed) (h0 : hosts) : handler :=
  synchronizer 0 (length (seeds_ s)) "session_seed" true
    (bound_handle_stopped (size h0) caller_complete).

(** The join of seed number [i]: counter [S i], one signal, forwarding to
    [single]. *)
Definition slot (s : session_seed) (h0 : hosts) (i : nat) (seed : endpoint)
    : handler :=
  synchronizer (S i) 1 (to_string seed) false (single s h0).

(** A counter that awaits its one signal. *)
Definition armed : token := {| remaining := 1; first_error := None |}.

(** The signals the join of seed [i] still awaits. *)
Definition awaited (i : nat) (w : world) : nat :=
  from_option remaining 0 (counters w !! S i).

(** The pending callback of seed [i] and its counter agree. *)
Definition slot_ok (s : session_seed) (h0 : hosts) (i : nat) (seed : endpoint)
    (st : stage) (t : token) : Prop :=
  match st with
  | connecting sd c => sd = seed ∧ c = slot s h0 i seed ∧ t = armed
  | handshaking _ sd c => sd = seed ∧ c = slot s h0 i seed ∧ t = armed
  | germinating _ c => c = slot s h0 i seed ∧ t = armed
  | finished => remaining t = 0
  end.

Record slots_inv (s : session_seed) (h0 : hosts) (seeds : list endpoint)
    (y : system) : Prop :=
  { si_pipes : length (sys_pipes y) = length seeds;
    si_counters : length (counters (sys_world y)) = S (length seeds);
    si_slot : ∀ i seed, seeds !! i = Some seed →
      ∃ st t, sys_pipes y !! i = Some st ∧
              counters (sys_world y) !! S i = Some t ∧
              slot_ok s h0 i seed st t }.

(** The invariant of a running bootstrap. *)
Record inv (s : session_seed) (h0 : hosts) (y : system) : Prop :=
  { inv_slots : slots_inv s h0 (seeds_ s) y;
    inv_top : ∃ t, counters (sys_world y) !! 0 = Some t ∧
                   remaining t = pending (sys_pipes y);
    inv_faults : faults (sys_world y) = 0;
    inv_done : completions (trace (sys_world y)) =
               if decide (pending (sys_pipes y) = 0)
               then [verdict (size h0) (size (hosts_ (sys_world y)))]
               else [] }.

(** The signals the top-level join still awaits. *)
Definition top_awaited (w : world) : nat :=
  from_option remaining 0 (counters w !! 0).

(** The channels started, in order. *)
Fixpoint channel_starts (t : list action) : list channel :=
  match t with
  | [] => []
  | act_channel_start peer :: rest => peer :: channel_starts rest
  | _ :: rest => channel_starts rest
  end.

(** The protocols attached, in order. *)
Fixpoint attached (t : list action) : list protocol :=
  match t with
  | [] => []
  | act_attach p :: rest => p :: attached rest
  | _ :: rest => attached rest
  end.

Definition is_version (p : protocol) : bool :=
  match p with protocol_version _ _ _ _ _ => true | _ => false end.

Definition is_ping (p : protocol) : bool :=
  match p with protocol_ping _ _ => true | _ => false end.

Definition protocol_peer (p : protocol) : channel :=
  match p with
  | protocol_version peer _ _ _ _ => peer
  | protocol_ping peer _ => peer
  | protocol_seed peer _ _ _ => peer
  end.

(** The channels the connector handed over with [success], in order. *)
Fixpoint opened (ds : list delivery) : list channel :=
  match ds with
  | [] => []
  | connected _ ec peer :: rest =>
      if is_error ec then opened rest else peer :: opened rest
  | _ :: rest => opened rest
  end.

(** The seed a delivery belongs to. *)
Definition seed_index (d : delivery) : nat :=
  match d with
  | connected i _ _ => i
  | shaken i _ => i
  | seeded i _ _ => i
  end.

(** The channels [protocol_version] was attached to, in order. *)
Definition version_peers (t : list action) : list channel :=
  protocol_peer <$> filter (λ p, is_version p = true) (attached t).

(** Every channel start in [t] comes after the attachment of
    [protocol_version] to that channel ([seen]: the channels it was
    attached to before [t]). *)
Fixpoint starts_follow_version (seen : list channel) (t : list action) : bool :=
  match t with
  | [] => true
  | act_attach (protocol_version peer _ _ _ _) :: rest =>
      starts_follow_version (peer :: seen) rest
  | act_channel_start peer :: rest =>
      bool_decide (peer ∈ seen) && starts_follow_version seen rest
  | _ :: rest => starts_follow_version seen rest
  end.

Definition is_connecting (st : stage) : bool :=
  match st with connecting _ _ => true | _ => false end.

(** The protocols that run on the channel of a seed whose address exchange
    is pending have been attached. *)
Definition germinating_attached (s : session_seed) (y : system) : Prop :=
  ∀ i peer c, sys_pipes y !! i = Some (germinating peer c) →
    act_attach (protocol_ping peer (heartbeat (timeouts_ s)))
      ∈ trace (sys_world y) ∧
    act_attach (protocol_seed peer (germination (timeouts_ s)) c (self_ s))
      ∈ trace (sys_world y).

(** ** A concrete bootstrap *)

(** Three seeds; two fail (one at connect, one at handshake) and one
    completes the address exchange with five new addresses. *)
Definition demo : session_seed :=
  {| timeouts_ := {| handshake := 30; heartbeat := 5; germination := 30 |};
     seeds_ := [ {| host := "a"; port := 1%N |}; {| host := "b"; port := 2%N |};
                 {| host := "c"; port := 3%N |} ];
     self_ := 0 |}.

Definition demo_hosts : hosts := {| capacity := 10; size := 2 |}.

Definition demo_run : list delivery :=
  [connected 2 (connect_error 1) 0; connected 0 success 7; shaken 0 success;
   connected 1 success 8; shaken 1 (handshake_error 3); seeded 0 5 success].

Definition stopped : system :=
  {| sys_world := initial demo_hosts; sys_pipes := [] |}.

Definition demo_end : system :=
  Eval vm_compute in default stopped (bootstrap demo demo_hosts demo_run).

(** A bootstrap stopped while the address exchange of the first seed is
    pending. *)
Definition demo_mid : system :=
  Eval vm_compute in
    default stopped
      (bootstrap demo demo_hosts [connected 0 success 7; shaken 0 success]).



(** * getx_responder *)

(** Only the declaration of the class is among the sources
    ([include/bitcoin/getx_responder.hpp]); its member functions are
    modelled from section 4.3 of the spec, under the names and with the
    parameters the header declares. *)

Definition hash_digest : Type := N.
Definition transaction_type : Type := nat.
Definition block_type : Type := nat.

Inductive inventory_type_id : Type :=
| inventory_transaction
| inventory_block.

Record inventory_vector_type : Type :=
  { inv_type : inventory_type_id; inv_hash : hash_digest }.

(** A GetDataRequest: the ordered sequence of its inventory vectors. *)
Definition get_data_type : Type := list inventory_vector_type.

(** What can be sent to a peer.  [message_not_found] is the negative reply
    of the wire protocol. *)
Inductive message : Type :=
| message_transaction (tx : transaction_type)
| message_block (blk : block_type)
| message_not_found (inv : inventory_vector_type).

(** The collaborators of the responder: what a fetch by hash hands to its
    callback, an error code and the content (meaningful when the code is
    [success]).  A miss is the code [not_found]; any other error code is
    a query error. *)
Record getx_responder : Type :=
  { txpool_ : hash_digest → code * transaction_type;
    chain_tx_ : hash_digest → code * transaction_type;
    chain_block_ : hash_digest → code * block_type }.

(** What the responder does, in program order. *)
Inductive effect : Type :=
| subscribed (node : channel)
| fetched_pool (h : hash_digest)
| fetched_chain_transaction (h : hash_digest)
| fetched_chain_block (h : hash_digest)
| sent (node : channel) (m : message).

(** Modelled from the spec: [getx_responder::monitor] registers the handler
    for inbound requests on the connection. *)
Definition monitor (node : channel) : list effect := [subscribed node].

(** Modelled from the spec: [getx_responder::chain_tx], the callback of the
    lookup in the transaction store of the blockchain: if found, send; if
    still not found, drop silently. *)
Definition chain_tx (ec : code) (tx : transaction_type) (node : channel)
    : list effect :=
  if is_error ec then [] else [sent node (message_transaction tx)].

(** Modelled from the spec: [getx_responder::pool_tx], the callback of the
    lookup in the transaction pool: if found, send the transaction to the
    requesting connection; if not found (pool miss or pool-query error),
    query the transaction store of the blockchain by hash. *)
Definition pool_tx (r : getx_responder) (ec : code) (tx : transaction_type)
    (tx_hash : hash_digest) (node : channel) : list effect :=
  if is_error ec
  then fetched_chain_transaction tx_hash ::
       chain_tx (chain_tx_ r tx_hash).1 (chain_tx_ r tx_hash).2 node
  else [sent node (message_transaction tx)].

(** Modelled from the spec: [getx_responder::send_block], the callback of
    the block lookup: if found, send the block; otherwise drop silently. *)
Definition send_block (ec : code) (blk : block_type) (node : channel)
    : list effect :=
  if is_error ec then [] else [sent node (message_block blk)].

(** Modelled from the spec: the resolution of one inventory vector. *)
Definition resolve (r : getx_responder) (inv : inventory_vector_type)
    (node : channel) : list effect :=
  match inv_type inv with
  | inventory_transaction =>
      fetched_pool (inv_hash inv) ::
      pool_tx r (txpool_ r (inv_hash inv)).1 (txpool_ r (inv_hash inv)).2
        (inv_hash inv) node
  | inventory_block =>
      fetched_chain_block (inv_hash inv) ::
      send_block (chain_block_ r (inv_hash inv)).1
        (chain_block_ r (inv_hash inv)).2 node
  end.

(** Modelled from the spec: [getx_responder::receive_get_data]: for each
    inventory vector in order, dispatch its resolution.  The resolutions are
    laid out in the order of the request, one of the orders the spec
    allows; a subscription that ends with an error serves nothing. *)
Definition receive_get_data (r : getx_responder) (ec : code)
    (packet : get_data_type) (node : channel) : list effect :=
  if is_error ec then []
  else flat_map (λ inv, resolve r inv node) packet.

(** The messages sent, in order. *)
Fixpoint sends (es : list effect) : list (channel * message) :=
  match es with
  | [] => []
  | sent node m :: rest => (node, m) :: sends rest
  | _ :: rest => sends rest
  end.

(** The content the collaborators hold for a vector. *)
Definition resolves (r : getx_responder) (inv : inventory_vector_type)
    (m : message) : Prop :=
  match inv_type inv with
  | inventory_transaction =>
      ∃ tx, m = message_transaction tx ∧
            (txpool_ r (inv_hash inv) = (success, tx) ∨
             chain_tx_ r (inv_hash inv) = (success, tx))
  | inventory_block =>
      ∃ blk, m = message_block blk ∧
             chain_block_ r (inv_hash inv) = (success, blk)
  end.

(** A query error turned into a miss. *)
Definition as_miss {A : Type} (q : code * A) : code * A :=
  (if is_error q.1 then not_found else success, q.2).

(** The responder whose collaborators report every query error as a
    miss. *)
Definition without_errors (r : getx_responder) : getx_responder :=
  {| txpool_ := λ h, as_miss (txpool_ r h);
     chain_tx_ := λ h, as_miss (chain_tx_ r h);
     chain_block_ := λ h, as_miss (chain_block_ r h) |}.

(** * Further observations on the session *)

Definition is_seed (p : protocol) : bool :=
  match p with protocol_seed _ _ _ _ => true | _ => false end.

Definition is_handshaking (st : stage) : bool :=
  match st with handshaking _ _ _ => true | _ => false end.

(** The channels the ping protocol, and the seed protocol, were attached
    to, in order. *)
Definition ping_peers (t : list action) : list channel :=
  protocol_peer <$> filter (λ p, is_ping p = true) (attached t).

Definition seed_peers (t : list action) : list channel :=
  protocol_peer <$> filter (λ p, is_seed p = true) (attached t).

(** The arguments of a protocol are the ones [handle_connected] and
    [handle_handshake] pass: the matching member of [timeouts_], [self_],
    and for [protocol_version] the height [0] and [relay = false]. *)
Definition configured (s : session_seed) (p : protocol) : bool :=
  match p with
  | protocol_version _ deadline self blockchain_height relay =>
      bool_decide (deadline = handshake (timeouts_ s)) &&
      bool_decide (self = self_ s) &&
      bool_decide (blockchain_height = 0) && negb relay
  | protocol_ping _ period => bool_decide (period = heartbeat (timeouts_ s))
  | protocol_seed _ deadline _ self =>
      bool_decide (deadline = germination (timeouts_ s)) &&
      bool_decide (self = self_ s)
  end.

(** Every attachment of the ping or the seed protocol in [t] is to a
    channel that was started before ([started]: the channels started before
    [t]). *)
Fixpoint protocols_follow_start (started : list channel) (t : list action)
    : bool :=
  match t with
  | [] => true
  | act_channel_start peer :: rest =>
      protocols_follow_start (peer :: started) rest
  | act_attach (protocol_ping peer _) :: rest =>
      bool_decide (peer ∈ started) && protocols_follow_start started rest
  | act_attach (protocol_seed peer _ _ _) :: rest =>
      bool_decide (peer ∈ started) && protocols_follow_start started rest
  | _ :: rest => protocols_follow_start started rest
  end.

(** The number of pipelines at a stage. *)
Definition weight (f : stage → bool) (ps : list stage) : nat :=
  sum_list ((λ st, if f st then 1 else 0) <$> ps).

(** The connect action of a seed. *)
Definition connect_to (seed : endpoint) : action :=
  act_connect (host seed) (port seed).

(** What one enabled delivery does to the pipeline of its seed and what
    it adds to the trace: the five ways through [handle_connected],
    [handle_handshake] and the completion of the address exchange. *)
Inductive outcome_of (s : session_seed) (y y' : system)
    : delivery → list action → Prop :=
| connect_failed i ec peer sd c cs :
    sys_pipes y !! i = Some (connecting sd c) → is_error ec = true →
    sys_pipes y' = <[i := finished]> (sys_pipes y) →
    outcome_of s y y' (connected i ec peer) (act_complete <$> cs)
| connect_succeeded i ec peer sd c :
    sys_pipes y !! i = Some (connecting sd c) → is_error ec = false →
    sys_pipes y' = <[i := handshaking peer sd c]> (sys_pipes y) →
    outcome_of s y y' (connected i ec peer)
      [act_attach (protocol_version peer (handshake (timeouts_ s))
                     (self_ s) 0 false);
       act_channel_start peer]
| handshake_failed i ec peer sd c cs :
    sys_pipes y !! i = Some (handshaking peer sd c) → is_error ec = true →
    sys_pipes y' = <[i := finished]> (sys_pipes y) →
    outcome_of s y y' (shaken i ec) (act_complete <$> cs)
| handshake_succeeded i ec peer sd c :
    sys_pipes y !! i = Some (handshaking peer sd c) → is_error ec = false →
    sys_pipes y' = <[i := germinating peer c]> (sys_pipes y) →
    outcome_of s y y' (shaken i ec)
      [act_attach (protocol_ping peer (heartbeat (timeouts_ s)));
       act_attach (protocol_seed peer (germination (timeouts_ s)) c (self_ s))]
| exchange_completed i k ec peer c cs :
    sys_pipes y !! i = Some (germinating peer c) →
    sys_pipes y' = <[i := finished]> (sys_pipes y) →
    outcome_of s y y' (seeded i k ec) (act_complete <$> cs).

(** How the protocols of a bootstrap are wired to its channels. *)
Record wiring (s : session_seed) (y : system) : Prop :=
  { wi_configured :
      Forall (λ p, configured s p = true) (attached (trace (sys_world y)));
    wi_pairs :
      ping_peers (trace (sys_world y)) = seed_peers (trace (sys_world y));
    wi_started :
      protocols_follow_start [] (trace (sys_world y)) = true;
    wi_handshaking : ∀ i peer sd c,
      sys_pipes y !! i = Some (handshaking peer sd c) →
      peer ∈ channel_starts (trace (sys_world y));
    wi_channels :
      weight is_connecting (sys_pipes y)
      + length (channel_starts (trace (sys_world y)))
      ≤ length (sys_pipes y);
    wi_pings :
      length (ping_peers (trace (sys_world y)))
      + weight is_handshaking (sys_pipes y)
      ≤ length (channel_starts (trace (sys_world y))) }.

(** * Properties *)

(** ** Basic facts *)

Lemma completions_app (a b : list action) :
  completions (a ++ b) = completions a ++ completions b.
Proof.
  induction a as [|[] a IH]; simpl; rewrite ?IH; reflexivity.
Qed.

Lemma connects_app (a b : list action) :
  connects (a ++ b) = connects a ++ connects b.
Proof.
  induction a as [|[] a IH]; simpl; rewrite ?IH; reflexivity.
Qed.

Lemma invoke_hosts (h : handler) (ec : code) (w : world) :
  hosts_ (invoke h ec w) = hosts_ w.
Proof.
  revert ec w; induction h as [|n h IH|c k name sup h IH]; intros ec w; simpl.
  - reflexivity.
  - destruct (n <? size (hosts_ w)); apply IH.
  - destruct (counters w !! c) as [[[|[|r]] fe]|]; simpl; try reflexivity.
    rewrite IH; reflexivity.
Qed.

(** The body of [handle_stopped] is what the bound handler runs, whatever
    code the join hands over. *)
Lemma invoke_bound_handle_stopped (n : nat) (h : handler) (ec : code) (w : world) :
  invoke (bound_handle_stopped n h) ec w = handle_stopped n h w.
Proof. reflexivity. Qed.

Lemma handle_stopped_verdict (n : nat) (h : handler) (w : world) :
  handle_stopped n h w = invoke h (verdict n (size (hosts_ w))) w.
Proof.
  unfold handle_stopped, verdict. destruct (n <? size (hosts_ w)); reflexivity.
Qed.

Lemma pending_app (a b : list stage) : pending (a ++ b) = pending a + pending b.
Proof.
  induction a as [|[] a IH]; simpl; rewrite ?IH; reflexivity.
Qed.

Lemma pending_finish (ps : list stage) (i : nat) (st : stage) :
  ps !! i = Some st → st ≠ finished →
  pending ps = S (pending (<[i := finished]> ps)).
Proof.
  revert i; induction ps as [|p ps IH]; intros [|i] Hl Hn; simpl in *;
    try discriminate.
  - injection Hl as ->. destruct st; congruence.
  - rewrite (IH i Hl Hn). destruct p; reflexivity.
Qed.

Lemma pending_advance (ps : list stage) (i : nat) (st st' : stage) :
  ps !! i = Some st → st ≠ finished → st' ≠ finished →
  pending (<[i := st']> ps) = pending ps.
Proof.
  revert i; induction ps as [|p ps IH]; intros [|i] Hl Hn Hn'; simpl in *;
    try discriminate.
  - injection Hl as ->. destruct st, st'; congruence.
  - rewrite (IH i Hl Hn Hn'). reflexivity.
Qed.

Lemma pending_zero (ps : list stage) (i : nat) (st : stage) :
  pending ps = 0 → ps !! i = Some st → st = finished.
Proof.
  revert i; induction ps as [|p ps IH]; intros [|i] Hp Hl; simpl in *;
    try discriminate.
  - injection Hl as <-. destruct p; congruence.
  - destruct p; try discriminate; eauto.
Qed.

Lemma pending_positive (ps : list stage) :
  pending ps ≠ 0 → ∃ i st, ps !! i = Some st ∧ st ≠ finished.
Proof.
  induction ps as [|p ps IH]; simpl; intros Hp; [congruence|].
  destruct (decide (p = finished)) as [->|Hn].
  - destruct (IH Hp) as (i & st & Hl & Hst). exists (S i), st. auto.
  - exists 0, p. auto.
Qed.

Lemma ranks_insert (ps : list stage) (i : nat) (st st' : stage) :
  ps !! i = Some st →
  ranks (<[i := st']> ps) + rank st = ranks ps + rank st'.
Proof.
  unfold ranks.
  revert i; induction ps as [|p ps IH]; intros [|i] Hl; simpl in *;
    try discriminate.
  - injection Hl as ->. cbn. lia.
  - specialize (IH i Hl). unfold fmap in IH. lia.
Qed.

Lemma ranks_pending (ps : list stage) : pending ps = 0 → ranks ps = 0.
Proof.
  unfold ranks. induction ps as [|[] ps IH]; cbn; intros H;
    try discriminate; auto.
Qed.

(** ** The invariant is established by [start] *)

Section Bootstrap.
Variable s : session_seed.
Variable h0 : hosts.

Lemma start_seeds_frame (rest : list endpoint) (y : system) :
  let y' := start_seeds (single s h0) rest y in
  hosts_ (sys_world y') = hosts_ (sys_world y) ∧
  faults (sys_world y') = faults (sys_world y) ∧
  completions (trace (sys_world y')) = completions (trace (sys_world y)) ∧
  connects (trace (sys_world y')) =
    connects (trace (sys_world y)) ++ ((λ e, (host e, port e)) <$> rest) ∧
  pending (sys_pipes y') = pending (sys_pipes y) + length rest ∧
  (∀ c t, counters (sys_world y) !! c = Some t →
          counters (sys_world y') !! c = Some t).
Proof.
  revert y; induction rest as [|seed rest IH]; intros y; simpl.
  - rewrite app_nil_r. repeat split; auto with lia.
  - match goal with
    | |- context [start_seeds _ rest ?y1] => specialize (IH y1)
    end.
    simpl in IH. destruct IH as (Hh & Hf & Hc & Hn & Hp & Hk).
    repeat split; try assumption.
    + rewrite Hc, completions_app, app_nil_r. reflexivity.
    + rewrite Hn, connects_app, <- app_assoc. reflexivity.
    + rewrite Hp, pending_app. simpl. lia.
    + intros c t Hl. apply Hk. apply lookup_app_l_Some. exact Hl.
Qed.

Lemma start_seeds_slots (rest done : list endpoint) (y : system) :
  slots_inv s h0 done y →
  slots_inv s h0 (done ++ rest) (start_seeds (single s h0) rest y).
Proof.
  revert done y; induction rest as [|seed rest IH]; intros done y Hy; simpl.
  - rewrite app_nil_r. exact Hy.
  - replace (done ++ seed :: rest) with ((done ++ [seed]) ++ rest)
      by (rewrite <- app_assoc; reflexivity).
    apply IH. destruct Hy as [Hp Hc Hs]. split; simpl.
    + rewrite !length_app, Hp. reflexivity.
    + rewrite !length_app, Hc. simpl. lia.
    + intros i sd Hl. apply lookup_app_Some in Hl as [Hl|[Hge Hl]].
      * destruct (Hs i sd Hl) as (st & t & Hst & Ht & Hok).
        exists st, t. split; [|split]; [| |exact Hok].
        -- apply lookup_app_l_Some. exact Hst.
        -- apply lookup_app_l_Some. exact Ht.
      * apply list_lookup_singleton_Some in Hl as [Hi ->].
        assert (i = length done) as -> by lia.
        exists (connecting sd (slot s h0 (length done) sd)), armed.
        split; [|split].
        -- rewrite Hc. unfold slot. rewrite lookup_app_r by lia.
           rewrite Hp, Nat.sub_diag. reflexivity.
        -- rewrite lookup_app_r by lia. rewrite Hc, Nat.sub_diag. reflexivity.
        -- simpl. auto.
Qed.

Lemma start_running :
  seeds_ s ≠ [] → capacity h0 ≠ 0 →
  let y := start s caller_complete (initial h0) in
  inv s h0 y ∧
  hosts_ (sys_world y) = h0 ∧
  pending (sys_pipes y) = length (seeds_ s) ∧
  connects (trace (sys_world y)) = (λ e, (host e, port e)) <$> seeds_ s.
Proof.
  intros Hs Hc. unfold start. simpl.
  rewrite bool_decide_eq_false_2 by exact Hs.
  rewrite bool_decide_eq_false_2 by exact Hc. simpl.
  set (y1 := {| sys_world := _; sys_pipes := [] |}).
  change (synchronizer 0 _ _ _ _) with (single s h0).
  destruct (start_seeds_frame (seeds_ s) y1) as (Hh & Hf & Hcs & Hn & Hp & Hk).
  assert (Hsl : slots_inv s h0 [] y1).
  { split; simpl; try reflexivity. intros i sd Hl. discriminate. }
  apply (start_seeds_slots (seeds_ s)) in Hsl. simpl in Hsl.
  simpl in Hp.
  split; [split|split; [|split]]; try assumption.
  - eexists. split; [apply Hk; reflexivity|]. simpl. rewrite Hp. reflexivity.
  - rewrite Hcs, Hp. simpl. destruct (seeds_ s); [congruence|].
    simpl. reflexivity.
Qed.

(** ** The invariant is preserved by every delivery *)

Lemma invoke_slot (i : nat) (seed : endpoint) (ec : code) (w : world)
    (r : nat) (fe : option code) :
  counters w !! S i = Some armed →
  counters w !! 0 = Some {| remaining := S r; first_error := fe |} →
  ∃ t0 ti, remaining t0 = r ∧ remaining ti = 0 ∧
    invoke (slot s h0 i seed) ec w =
      let w' := set_counter 0 t0 (set_counter (S i) ti w) in
      match r with
      | 0 => emit (act_complete (verdict (size h0) (size (hosts_ w)))) w'
      | S _ => w'
      end.
Proof.
  intros Hi H0. unfold slot, single. simpl. rewrite Hi. simpl.
  rewrite list_lookup_insert_ne by lia. rewrite H0. simpl.
  exists {| remaining := r;
            first_error := observe fe (combined false (observe None ec)) |},
         {| remaining := 0; first_error := observe None ec |}.
  split; [reflexivity|]. split; [reflexivity|].
  destruct r; [|reflexivity].
  unfold verdict. destruct (size h0 <? size (hosts_ w)); reflexivity.
Qed.

(** What a pending seed is: its index names a configured seed, its
    callback holds the slot of that seed, and its counter is armed. *)
Lemma pending_slot (y : system) (i : nat) (st : stage) :
  inv s h0 y → sys_pipes y !! i = Some st →
  ∃ seed t, seeds_ s !! i = Some seed ∧
            counters (sys_world y) !! S i = Some t ∧
            slot_ok s h0 i seed st t.
Proof.
  intros [[Hp Hc Hs] _ _ _] Hl.
  destruct (lookup_lt_is_Some_2 (seeds_ s) i) as [seed Hseed].
  { rewrite <- Hp. eapply lookup_lt_Some. exact Hl. }
  destruct (Hs i seed Hseed) as (st' & t & Hst & Ht & Hok).
  rewrite Hl in Hst. injection Hst as <-. eauto.
Qed.

(** The effect of signalling the slot of a pending seed. *)
Lemma signal_world (y : system) (i : nat) (seed : endpoint) (st : stage)
    (ec : code) (w : world) :
  inv s h0 y → seeds_ s !! i = Some seed →
  sys_pipes y !! i = Some st → st ≠ finished →
  counters w = counters (sys_world y) →
  ∃ t0 ti,
    remaining t0 = pending (<[i := finished]> (sys_pipes y)) ∧
    remaining ti = 0 ∧
    hosts_ (invoke (slot s h0 i seed) ec w) = hosts_ w ∧
    faults (invoke (slot s h0 i seed) ec w) = faults w ∧
    counters (invoke (slot s h0 i seed) ec w) =
      <[0 := t0]> (<[S i := ti]> (counters w)) ∧
    trace (invoke (slot s h0 i seed) ec w) =
      trace w ++
      (if decide (pending (<[i := finished]> (sys_pipes y)) = 0)
       then [act_complete (verdict (size h0) (size (hosts_ w)))] else []).
Proof.
  intros Hinv Hseed Hl Hn Hw.
  destruct (pending_slot y i st Hinv Hl) as (seed' & t & Hseed' & Ht & Hok).
  rewrite Hseed in Hseed'. injection Hseed' as <-.
  assert (t = armed) as -> by (destruct st; simpl in Hok; tauto).
  destruct Hinv as [_ (t0 & H0 & Hr) _ _].
  rewrite (pending_finish _ i st Hl Hn) in Hr. destruct t0 as [r0 fe].
  simpl in Hr. subst r0. rewrite <- Hw in Ht, H0.
  destruct (invoke_slot i seed ec w _ fe Ht H0) as (t0 & ti & H1 & H2 & ->).
  exists t0, ti. split; [exact H1|]. split; [exact H2|].
  destruct (pending (<[i := finished]> (sys_pipes y))); simpl;
    rewrite ?app_nil_r; auto.
Qed.

Lemma inv_signal (y : system) (i : nat) (st : stage) (w : world)
    (complete : handler) (ec : code) :
  inv s h0 y → sys_pipes y !! i = Some st → st ≠ finished →
  (∀ seed t, slot_ok s h0 i seed st t → complete = slot s h0 i seed) →
  counters w = counters (sys_world y) →
  faults w = faults (sys_world y) →
  completions (trace w) = completions (trace (sys_world y)) →
  inv s h0 {| sys_world := invoke complete ec w;
              sys_pipes := <[i := finished]> (sys_pipes y) |}.
Proof.
  intros Hinv Hl Hn Hc Hw Hf Ht.
  destruct (pending_slot y i st Hinv Hl) as (seed & t & Hseed & Hti & Hok).
  rewrite (Hc seed t Hok).
  destruct (signal_world y i seed st ec w Hinv Hseed Hl Hn Hw)
    as (t0 & ti & H0 & Hi & Hh' & Hf' & Hc' & Ht').
  pose proof Hinv as [[Hp Hcn Hs] Htop Hfl Hdone].
  split; [split|..]; cbn [sys_world sys_pipes].
  - rewrite length_insert. exact Hp.
  - rewrite Hc', !length_insert, Hw. exact Hcn.
  - intros j sd Hj. rewrite Hc', Hw.
    destruct (decide (i = j)) as [<-|Hij].
    + exists finished, ti. split; [|split]; [| |exact Hi].
      * apply list_lookup_insert_eq. eapply lookup_lt_Some. exact Hl.
      * rewrite list_lookup_insert_ne by lia.
        apply list_lookup_insert_eq. eapply lookup_lt_Some. exact Hti.
    + destruct (Hs j sd Hj) as (stj & tj & Hstj & Htj & Hokj).
      exists stj, tj. rewrite !list_lookup_insert_ne by lia. auto.
  - exists t0. split; [|exact H0]. rewrite Hc'.
    apply list_lookup_insert_eq. rewrite length_insert, Hw, Hcn. lia.
  - rewrite Hf', Hf. exact Hfl.
  - rewrite Ht', completions_app, Ht, Hdone, Hh'.
    rewrite (pending_finish _ i st Hl Hn).
    rewrite decide_False by lia.
    destruct (decide (pending (<[i := finished]> (sys_pipes y)) = 0));
      reflexivity.
Qed.

Lemma inv_advance (y : system) (i : nat) (st st' : stage) (w : world) :
  inv s h0 y → sys_pipes y !! i = Some st →
  st ≠ finished → st' ≠ finished →
  (∀ seed t, slot_ok s h0 i seed st t → slot_ok s h0 i seed st' t) →
  counters w = counters (sys_world y) →
  faults w = faults (sys_world y) →
  completions (trace w) = completions (trace (sys_world y)) →
  inv s h0 {| sys_world := w; sys_pipes := <[i := st']> (sys_pipes y) |}.
Proof.
  intros [[Hp Hcn Hs] Htop Hfl Hdone] Hl Hn Hn' Hok Hw Hf Ht.
  split; [split|..]; simpl.
  - rewrite length_insert. exact Hp.
  - rewrite Hw. exact Hcn.
  - intros j sd Hj. rewrite Hw.
    destruct (Hs j sd Hj) as (stj & t & Hstj & Htj & Hokj).
    destruct (decide (i = j)) as [<-|Hij].
    + rewrite Hl in Hstj. injection Hstj as <-.
      exists st', t. split; [|split]; [|exact Htj|apply Hok; exact Hokj].
      apply list_lookup_insert_eq. eapply lookup_lt_Some. exact Hl.
    + exists stj, t. rewrite list_lookup_insert_ne by lia. auto.
  - rewrite Hw, (pending_advance _ i st st' Hl Hn Hn'). exact Htop.
  - rewrite Hf. exact Hfl.
  - rewrite Ht, Hdone, (pending_advance _ i st st' Hl Hn Hn').
    rewrite (pending_finish _ i st Hl Hn). rewrite !decide_False by lia.
    reflexivity.
Qed.

Lemma deliver_inv (d : delivery) (y y' : system) :
  inv s h0 y → deliver s d y = Some y' → inv s h0 y'.
Proof.
  intros Hinv Hd. destruct d as [i ec peer|i ec|i k ec]; simpl in Hd;
    destruct (sys_pipes y !! i) as [[sd c|p sd c|p c|]|] eqn:Hl;
    try discriminate; injection Hd as <-; unfold settle.
  - unfold handle_connected. destruct (is_error ec); simpl.
    + apply (inv_signal y i _ _ _ _ Hinv Hl); try done.
      intros seed t (_ & -> & _). reflexivity.
    + apply (inv_advance y i _ _ _ Hinv Hl); try done.
      simpl. rewrite !completions_app. simpl. rewrite !app_nil_r. reflexivity.
  - unfold handle_handshake. destruct (is_error ec); simpl.
    + apply (inv_signal y i _ _ _ _ Hinv Hl); try done.
      intros seed t (_ & -> & _). reflexivity.
    + apply (inv_advance y i _ _ _ Hinv Hl); try done.
      * intros seed t (_ & -> & ->). simpl. auto.
      * simpl. rewrite !completions_app. simpl. rewrite !app_nil_r. reflexivity.
  - unfold protocol_seed_stopped. simpl.
    apply (inv_signal y i _ _ _ _ Hinv Hl); try done.
    intros seed t (-> & _). reflexivity.
Qed.

Lemma run_inv (ds : list delivery) (y y' : system) :
  inv s h0 y → run s ds y = Some y' → inv s h0 y'.
Proof.
  revert y; induction ds as [|d ds IH]; intros y Hinv Hr; simpl in Hr.
  - injection Hr as <-. exact Hinv.
  - destruct (deliver s d y) as [y1|] eqn:Hd; [|discriminate].
    eapply IH; [|exact Hr]. eapply deliver_inv; eassumption.
Qed.

(** ** Signals are counted by the counters *)

Lemma signal_awaited (y : system) (i j : nat) (seed : endpoint) (st : stage)
    (ec : code) (w : world) :
  inv s h0 y → seeds_ s !! i = Some seed →
  sys_pipes y !! i = Some st → st ≠ finished →
  counters w = counters (sys_world y) →
  awaited j w = awaited j (invoke (slot s h0 i seed) ec w)
                + (if bool_decide (i = j) then 1 else 0).
Proof.
  intros Hinv Hseed Hl Hn Hw.
  destruct (signal_world y i seed st ec w Hinv Hseed Hl Hn Hw)
    as (t0 & ti & H0 & Hi & _ & _ & Hc' & _).
  destruct (pending_slot y i st Hinv Hl) as (seed' & t & _ & Ht & Hok).
  assert (t = armed) as -> by (destruct st; simpl in Hok; tauto).
  unfold awaited. rewrite Hc', list_lookup_insert_ne by lia.
  case_bool_decide as Hij.
  - subst j. rewrite list_lookup_insert_eq
      by (rewrite Hw; eapply lookup_lt_Some; exact Ht).
    rewrite Hw, Ht. simpl. rewrite Hi. reflexivity.
  - rewrite list_lookup_insert_ne by lia. lia.
Qed.

Lemma deliver_awaited (d : delivery) (y y' : system) (j : nat) :
  inv s h0 y → deliver s d y = Some y' →
  awaited j (sys_world y) =
  awaited j (sys_world y') + length (signals j [d]).
Proof.
  intros Hinv Hd. destruct d as [i ec peer|i ec|i k ec]; simpl in Hd;
    destruct (sys_pipes y !! i) as [[sd c|p sd c|p c|]|] eqn:Hl;
    try discriminate; injection Hd as <-; unfold settle;
    destruct (pending_slot y i _ Hinv Hl) as (seed & t & Hseed & Ht & Hok);
    simpl in Hok; cbn [signals signal_of sys_world].
  - destruct Hok as (_ & -> & _). unfold handle_connected.
    destruct (is_error ec); cbn [fst].
    + rewrite (signal_awaited y i j seed _ ec _ Hinv Hseed Hl) by done.
      case_bool_decide; simpl; lia.
    + unfold awaited. simpl. lia.
  - destruct Hok as (_ & -> & _). unfold handle_handshake.
    destruct (is_error ec); cbn [fst].
    + rewrite (signal_awaited y i j seed _ ec _ Hinv Hseed Hl) by done.
      case_bool_decide; simpl; lia.
    + unfold awaited. simpl. lia.
  - destruct Hok as (-> & _). unfold protocol_seed_stopped. cbn [fst].
    change (awaited j (sys_world y))
      with (awaited j (store k (sys_world y))).
    rewrite (signal_awaited y i j seed _ ec (store k (sys_world y))
               Hinv Hseed Hl) by done.
    case_bool_decide; simpl; lia.
Qed.

Lemma signals_app (i : nat) (a b : list delivery) :
  signals i (a ++ b) = signals i a ++ signals i b.
Proof.
  induction a as [|d a IH]; simpl; [reflexivity|].
  destruct (signal_of d) as [[j p]|]; [case_bool_decide|]; simpl;
    rewrite IH; reflexivity.
Qed.

Lemma run_awaited (ds : list delivery) (y y' : system) (j : nat) :
  inv s h0 y → run s ds y = Some y' →
  awaited j (sys_world y) =
  awaited j (sys_world y') + length (signals j ds).
Proof.
  revert y; induction ds as [|d ds IH]; intros y Hinv Hr; simpl in Hr.
  - injection Hr as <-. simpl. lia.
  - destruct (deliver s d y) as [y1|] eqn:Hd; [|discriminate].
    change (d :: ds) with ([d] ++ ds). rewrite signals_app, length_app.
    rewrite (deliver_awaited d y y1 j Hinv Hd).
    rewrite (IH y1 (deliver_inv d y y1 Hinv Hd) Hr). lia.
Qed.

(** ** Progress and termination *)

Lemma deliver_ranks (d : delivery) (y y' : system) :
  deliver s d y = Some y' → S (ranks (sys_pipes y')) ≤ ranks (sys_pipes y).
Proof.
  intros Hd. destruct d as [i ec peer|i ec|i k ec]; simpl in Hd;
    destruct (sys_pipes y !! i) as [[sd c|p sd c|p c|]|] eqn:Hl;
    try discriminate; injection Hd as <-; unfold settle; cbn [sys_pipes].
  - pose proof (ranks_insert _ i _
      (handle_connected s ec peer sd c (sys_world y)).2 Hl) as H.
    unfold handle_connected in *. destruct (is_error ec); simpl in *; lia.
  - pose proof (ranks_insert _ i _
      (handle_handshake s ec p sd c (sys_world y)).2 Hl) as H.
    unfold handle_handshake in *. destruct (is_error ec); simpl in *; lia.
  - pose proof (ranks_insert _ i _ finished Hl) as H. simpl in *. lia.
Qed.

Lemma run_ranks (ds : list delivery) (y y' : system) :
  run s ds y = Some y' →
  length ds + ranks (sys_pipes y') ≤ ranks (sys_pipes y).
Proof.
  revert y; induction ds as [|d ds IH]; intros y Hr; simpl in Hr.
  - injection Hr as <-. simpl. lia.
  - destruct (deliver s d y) as [y1|] eqn:Hd; [|discriminate].
    specialize (IH y1 Hr). apply deliver_ranks in Hd. simpl. lia.
Qed.

Lemma deliver_progress (y : system) :
  pending (sys_pipes y) ≠ 0 → ∃ d y', deliver s d y = Some y'.
Proof.
  intros Hp. destruct (pending_positive _ Hp) as (i & st & Hl & Hn).
  destruct st as [sd c|p sd c|p c|]; [| | |congruence].
  - exists (connected i success 0). simpl. rewrite Hl. eauto.
  - exists (shaken i success). simpl. rewrite Hl. eauto.
  - exists (seeded i 0 success). simpl. rewrite Hl. eauto.
Qed.

Lemma deliver_progress_at (y : system) (i : nat) (st : stage) :
  sys_pipes y !! i = Some st → st ≠ finished →
  ∃ d y', seed_index d = i ∧ deliver s d y = Some y'.
Proof.
  intros Hl Hn. destruct st as [sd c|p sd c|p c|]; [| | |congruence].
  - exists (connected i success 0). simpl. rewrite Hl. eauto.
  - exists (shaken i success). simpl. rewrite Hl. eauto.
  - exists (seeded i 0 success). simpl. rewrite Hl. eauto.
Qed.

Lemma deliver_hosts (d : delivery) (y y' : system) :
  deliver s d y = Some y' →
  hosts_ (sys_world y') = hosts_after [d] (hosts_ (sys_world y)).
Proof.
  intros Hd. destruct d as [i ec peer|i ec|i k ec]; simpl in Hd;
    destruct (sys_pipes y !! i) as [[sd c|p sd c|p c|]|] eqn:Hl;
    try discriminate; injection Hd as <-; unfold settle; cbn [sys_world].
  - unfold handle_connected. destruct (is_error ec); cbn [fst].
    + apply invoke_hosts.
    + reflexivity.
  - unfold handle_handshake. destruct (is_error ec); cbn [fst].
    + apply invoke_hosts.
    + reflexivity.
  - unfold protocol_seed_stopped. cbn [fst]. rewrite invoke_hosts. reflexivity.
Qed.

Lemma run_hosts (ds : list delivery) (y y' : system) :
  run s ds y = Some y' →
  hosts_ (sys_world y') = hosts_after ds (hosts_ (sys_world y)).
Proof.
  revert y; induction ds as [|d ds IH]; intros y Hr; simpl in Hr.
  - injection Hr as <-. reflexivity.
  - destruct (deliver s d y) as [y1|] eqn:Hd; [|discriminate].
    rewrite (IH y1 Hr), (deliver_hosts d y y1 Hd).
    destruct d; reflexivity.
Qed.

End Bootstrap.

(** ** The session as seen by the caller of [start] *)

Lemma ranks_bound (ps : list stage) : ranks ps ≤ 3 * length ps.
Proof.
  unfold ranks. induction ps as [|[] ps IH]; cbn in *; lia.
Qed.

Lemma pending_all (ps : list stage) (i : nat) (st : stage) :
  pending ps = length ps → ps !! i = Some st → st ≠ finished.
Proof.
  revert i; induction ps as [|p ps IH]; intros i Hp Hl; [discriminate|].
  assert (pending ps ≤ length ps).
  { clear. induction ps as [|[] ps IH]; simpl; lia. }
  destruct i as [|i]; simpl in *.
  - injection Hl as <-. destruct p; try discriminate. lia.
  - destruct p; simpl in Hp; try (eapply IH; [|eassumption]; lia).
Qed.

Lemma run_idle (s : session_seed) (ds : list delivery) (y y' : system) :
  pending (sys_pipes y) = 0 → run s ds y = Some y' → ds = [] ∧ y' = y.
Proof.
  intros Hp Hr. pose proof (run_ranks s ds y y' Hr) as H.
  rewrite (ranks_pending _ Hp) in H.
  destruct ds; [|simpl in H; lia]. simpl in Hr. injection Hr as <-. auto.
Qed.

(** The two ways [start] goes. *)
Lemma start_cases (s : session_seed) (h0 : hosts) :
  (seeds_ s = [] ∨ capacity h0 = 0) ∧
    start s caller_complete (initial h0) =
      {| sys_world := emit (act_complete operation_failed) (initial h0);
         sys_pipes := [] |}
  ∨ (seeds_ s ≠ [] ∧ capacity h0 ≠ 0).
Proof.
  destruct (decide (seeds_ s = [])) as [He|He].
  - left. split; [auto|]. unfold start. rewrite He. reflexivity.
  - destruct (decide (capacity h0 = 0)) as [Hc|Hc]; [|right; auto].
    left. split; [auto|]. unfold start. simpl.
    rewrite (bool_decide_eq_true_2 _ Hc), orb_true_r. reflexivity.
Qed.

(** C1.  For a seed list of length at least one, whatever the outcomes of
    the seed pipelines and whatever the order in which the collaborators
    deliver them, the completion handler of the caller is invoked at most
    once, and exactly once as soon as every pipeline has finished; the
    pipelines finish after at most three deliveries per seed, and while one
    has not finished a delivery is still due. *)
Theorem start_completes_exactly_once (s : session_seed) (h0 : hosts)
    (ds : list delivery) (y : system) :
  seeds_ s ≠ [] →
  bootstrap s h0 ds = Some y →
  length (completions (trace (sys_world y))) ≤ 1 ∧
  (pending (sys_pipes y) = 0 ↔
   length (completions (trace (sys_world y))) = 1) ∧
  length ds ≤ 3 * length (seeds_ s) ∧
  (pending (sys_pipes y) ≠ 0 → ∃ d y', deliver s d y = Some y').
Proof.
  intros Hs Hr. unfold bootstrap in Hr.
  destruct (start_cases s h0) as [[_ Hst]|[_ Hc]].
  - rewrite Hst in Hr. apply run_idle in Hr; [|reflexivity].
    destruct Hr as [-> ->].
    simpl. repeat split; auto with lia; congruence.
  - destruct (start_running s h0 Hs Hc) as (Hinv & _ & _ & _).
    pose proof (run_inv s h0 ds _ y Hinv Hr) as [_ _ _ Hdone].
    pose proof (run_ranks s ds _ y Hr) as Hk.
    pose proof (ranks_bound (sys_pipes (start s caller_complete (initial h0)))).
    destruct Hinv as [[Hp _ _] _ _ _]. rewrite Hdone.
    destruct (decide (pending (sys_pipes y) = 0)); simpl.
    + repeat split; auto with lia; congruence.
    + repeat split; auto with lia; try congruence.
      intros _. apply deliver_progress. assumption.
Qed.

Lemma start_completes_exactly_once_witness :
  length (completions (trace (sys_world demo_end))) ≤ 1 ∧
  (pending (sys_pipes demo_end) = 0 ↔
   length (completions (trace (sys_world demo_end))) = 1) ∧
  length demo_run ≤ 3 * length (seeds_ demo) ∧
  (pending (sys_pipes demo_end) ≠ 0 → ∃ d y', deliver demo d demo_end = Some y').
Proof.
  apply (start_completes_exactly_once demo demo_hosts demo_run demo_end).
  - discriminate.
  - vm_compute. reflexivity.
Defined.

(** The accounting of the signals of one slot along a run. *)
Lemma slot_accounting (s : session_seed) (h0 : hosts)
    (ds : list delivery) (y : system) (i : nat) (seed : endpoint) :
  seeds_ s ≠ [] → capacity h0 ≠ 0 →
  bootstrap s h0 ds = Some y →
  seeds_ s !! i = Some seed →
  length (signals i ds) ≤ 1 ∧
  awaited i (sys_world y) + length (signals i ds) = 1 ∧
  faults (sys_world y) = 0 ∧
  (sys_pipes y !! i = Some finished ↔ length (signals i ds) = 1) ∧
  (pending (sys_pipes y) = 0 → length (signals i ds) = 1) ∧
  (length (signals i ds) = 0 →
   ∃ d y', seed_index d = i ∧ deliver s d y = Some y').
Proof.
  intros Hs Hc Hr Hseed. unfold bootstrap in Hr.
  destruct (start_running s h0 Hs Hc) as (Hinv & _ & Hp & _).
  pose proof (run_inv s h0 ds _ y Hinv Hr) as Hy.
  pose proof (run_awaited s h0 ds _ y i Hinv Hr) as Ha.
  assert (Hi : awaited i (sys_world (start s caller_complete (initial h0))) = 1).
  { destruct Hinv as [[Hlen _ Hsl] _ _ _].
    destruct (Hsl i seed Hseed) as (st & t & Hst & Ht & Hok).
    rewrite <- Hlen in Hp. pose proof (pending_all _ i st Hp Hst) as Hn.
    unfold awaited. rewrite Ht.
    destruct st; simpl in Hok; try congruence;
      repeat match goal with H : _ ∧ _ |- _ => destruct H end; subst;
      reflexivity. }
  rewrite Hi in Ha.
  assert (Hfin : sys_pipes y !! i = Some finished ↔ length (signals i ds) = 1).
  { destruct Hy as [[_ _ Hsl] _ _ _].
    destruct (Hsl i seed Hseed) as (st & t & Hst & Ht & Hok).
    unfold awaited in Ha. rewrite Ht in Ha. simpl in Ha. rewrite Hst.
    destruct st; simpl in Hok;
      repeat match goal with H : _ ∧ _ |- _ => destruct H end; subst;
      simpl in Ha; split; intros; try congruence; try lia. }
  split; [lia|]. split; [lia|]. split; [apply Hy|]. split; [exact Hfin|].
  destruct Hy as [[_ _ Hsl] _ _ _].
  destruct (Hsl i seed Hseed) as (st & t & Hst & _ & _).
  split.
  - intros Hz. apply Hfin.
    rewrite Hst. f_equal. eapply pending_zero; eassumption.
  - intros Hz. apply (deliver_progress_at s y i st Hst).
    intros ->. apply Hfin in Hst. lia.
Qed.

(** C2.  In a bootstrap that passed the precondition check, the join slot
    of every seed is signalled at most once, from one of the three points
    connect failure, handshake failure or completion of the address
    exchange; its counter records that signal and no signal is ever
    refused as a surplus; the slot has been signalled exactly once
    precisely when the pipeline of the seed has finished, hence for every
    seed once all pipelines have finished; and while it has not been
    signalled, a delivery for that seed is still due. *)
Theorem slot_signalled_exactly_once (s : session_seed) (h0 : hosts)
    (ds : list delivery) (y : system) (i : nat) (seed : endpoint) :
  seeds_ s ≠ [] → capacity h0 ≠ 0 →
  bootstrap s h0 ds = Some y →
  seeds_ s !! i = Some seed →
  length (signals i ds) ≤ 1 ∧
  awaited i (sys_world y) + length (signals i ds) = 1 ∧
  faults (sys_world y) = 0 ∧
  (sys_pipes y !! i = Some finished ↔ length (signals i ds) = 1) ∧
  (pending (sys_pipes y) = 0 → length (signals i ds) = 1) ∧
  (length (signals i ds) = 0 →
   ∃ d y', seed_index d = i ∧ deliver s d y = Some y').
Proof.
  intros Hs Hc Hr Hseed. exact (slot_accounting s h0 ds y i seed Hs Hc Hr Hseed).
Qed.

Lemma slot_signalled_exactly_once_witness :
  length (signals 1 demo_run) ≤ 1 ∧
  awaited 1 (sys_world demo_end) + length (signals 1 demo_run) = 1 ∧
  faults (sys_world demo_end) = 0 ∧
  (sys_pipes demo_end !! 1 = Some finished ↔ length (signals 1 demo_run) = 1) ∧
  (pending (sys_pipes demo_end) = 0 → length (signals 1 demo_run) = 1) ∧
  (length (signals 1 demo_run) = 0 →
   ∃ d y', seed_index d = 1 ∧ deliver demo d demo_end = Some y').
Proof.
  apply (slot_signalled_exactly_once demo demo_hosts demo_run demo_end 1
           {| host := "b"; port := 2%N |}).
  - discriminate.
  - discriminate.
  - vm_compute. reflexivity.
  - reflexivity.
Defined.

Lemma deliver_idle (s : session_seed) (d : delivery) (y : system) :
  pending (sys_pipes y) = 0 → deliver s d y = None.
Proof.
  intros Hp. destruct d as [i ec peer|i ec|i k ec]; simpl;
    destruct (sys_pipes y !! i) as [st|] eqn:Hl; try reflexivity;
    rewrite (pending_zero _ i st Hp Hl); reflexivity.
Qed.

Lemma verdict_success (n k : nat) : verdict n k = success ↔ n < k.
Proof.
  unfold verdict. destruct (Nat.ltb_spec n k); split; intros; try done; lia.
Qed.

Lemma verdict_failed (n k : nat) : verdict n k = operation_failed ↔ ¬ n < k.
Proof.
  unfold verdict. destruct (Nat.ltb_spec n k); split; intros; try done; lia.
Qed.

(** C3.  [handle_stopped] reports [success] when the host set is larger
    than the recorded start size and [operation_failed] otherwise; and in a
    running bootstrap, once the top-level join has fired, the caller has
    been given one result, which is [success] exactly when the size of the
    host set at that moment (no delivery can follow) is strictly greater
    than the size recorded by [start]. *)
Theorem growth_decides_result (s : session_seed) (h0 : hosts)
    (ds : list delivery) (y : system) :
  seeds_ s ≠ [] → capacity h0 ≠ 0 →
  bootstrap s h0 ds = Some y →
  top_awaited (sys_world y) = 0 →
  (∀ n w, handle_stopped n caller_complete w =
          emit (act_complete (if n <? size (hosts_ w) then success
                              else operation_failed)) w) ∧
  (∀ d, deliver s d y = None) ∧
  ∃ ec, completions (trace (sys_world y)) = [ec] ∧
        (ec = success ↔ size h0 < size (hosts_ (sys_world y))) ∧
        (ec = operation_failed ↔ ¬ size h0 < size (hosts_ (sys_world y))).
Proof.
  intros Hs Hc Hr Htop. unfold bootstrap in Hr.
  destruct (start_running s h0 Hs Hc) as (Hinv & _ & _ & _).
  pose proof (run_inv s h0 ds _ y Hinv Hr) as [_ (t & Ht & Hrem) _ Hdone].
  unfold top_awaited in Htop. rewrite Ht in Htop. simpl in Htop.
  rewrite Htop in Hrem. rewrite decide_True in Hdone by auto.
  split; [|split].
  - intros n w. unfold handle_stopped. simpl.
    destruct (n <? size (hosts_ w)); reflexivity.
  - intros d. apply deliver_idle. auto.
  - eexists. split; [exact Hdone|]. split.
    + apply verdict_success.
    + apply verdict_failed.
Qed.

Lemma growth_decides_result_witness :
  (∀ n w, handle_stopped n caller_complete w =
          emit (act_complete (if n <? size (hosts_ w) then success
                              else operation_failed)) w) ∧
  (∀ d, deliver demo d demo_end = None) ∧
  ∃ ec, completions (trace (sys_world demo_end)) = [ec] ∧
        (ec = success ↔ size demo_hosts < size (hosts_ (sys_world demo_end))) ∧
        (ec = operation_failed ↔
         ¬ size demo_hosts < size (hosts_ (sys_world demo_end))).
Proof.
  apply (growth_decides_result demo demo_hosts demo_run demo_end).
  - discriminate.
  - discriminate.
  - vm_compute. reflexivity.
  - reflexivity.
Defined.

(** C4.  When the seed list is empty or the capacity of the host set is
    zero, [start] invokes the completion handler with [operation_failed]
    before it returns and does nothing else: no counter is created, no
    connection is attempted, no callback is left pending, so no delivery
    can ever follow. *)
Theorem start_rejects_synchronously (s : session_seed) (w : world) :
  seeds_ s = [] ∨ capacity (hosts_ w) = 0 →
  start s caller_complete w =
    {| sys_world := emit (act_complete operation_failed) w; sys_pipes := [] |} ∧
  completions (trace (sys_world (start s caller_complete w))) =
    completions (trace w) ++ [operation_failed] ∧
  connects (trace (sys_world (start s caller_complete w))) =
    connects (trace w) ∧
  counters (sys_world (start s caller_complete w)) = counters w ∧
  ∀ ds y, run s ds (start s caller_complete w) = Some y → ds = [].
Proof.
  intros H.
  assert (Hst : start s caller_complete w =
    {| sys_world := emit (act_complete operation_failed) w; sys_pipes := [] |}).
  { unfold start. destruct H as [H|H].
    - rewrite H. reflexivity.
    - rewrite (bool_decide_eq_true_2 _ H), orb_true_r. reflexivity. }
  rewrite Hst. simpl. split; [reflexivity|].
  rewrite completions_app, connects_app, app_nil_r. simpl.
  repeat split; try reflexivity.
  intros ds y Hr. apply run_idle in Hr; [|reflexivity]. apply Hr.
Qed.

Lemma start_rejects_synchronously_witness :
  let s := {| timeouts_ := timeouts_ demo; seeds_ := []; self_ := 0 |} in
  let w := initial demo_hosts in
  start s caller_complete w =
    {| sys_world := emit (act_complete operation_failed) w; sys_pipes := [] |} ∧
  completions (trace (sys_world (start s caller_complete w))) =
    completions (trace w) ++ [operation_failed] ∧
  connects (trace (sys_world (start s caller_complete w))) =
    connects (trace w) ∧
  counters (sys_world (start s caller_complete w)) = counters w ∧
  ∀ ds y, run s ds (start s caller_complete w) = Some y → ds = [].
Proof.
  intros s w. apply (start_rejects_synchronously s w). left. reflexivity.
Defined.




(** ** What reaches the caller *)

Lemma invoke_trace (h : handler) (ec : code) (w : world) :
  ∃ cs, trace (invoke h ec w) = trace w ++ (act_complete <$> cs).
Proof.
  revert ec w; induction h as [|n h IH|c k name sup h IH]; intros ec w; simpl.
  - exists [ec]. reflexivity.
  - destruct (n <? size (hosts_ w)); apply IH.
  - destruct (counters w !! c) as [[[|[|r]] fe]|]; simpl;
      try (exists []; simpl; rewrite app_nil_r; reflexivity).
    destruct (IH (combined sup (observe fe ec))
                (set_counter c {| remaining := 0;
                                  first_error := observe fe ec |} w))
      as [cs Hcs].
    exists cs. exact Hcs.
Qed.

Lemma channel_starts_app (a b : list action) :
  channel_starts (a ++ b) = channel_starts a ++ channel_starts b.
Proof.
  induction a as [|[] a IH]; simpl; rewrite ?IH; reflexivity.
Qed.

Lemma attached_app (a b : list action) :
  attached (a ++ b) = attached a ++ attached b.
Proof.
  induction a as [|[] a IH]; simpl; rewrite ?IH; reflexivity.
Qed.

Lemma channel_starts_complete (cs : list code) :
  channel_starts (act_complete <$> cs) = [].
Proof. induction cs; simpl; auto. Qed.

Lemma attached_complete (cs : list code) : attached (act_complete <$> cs) = [].
Proof. induction cs; simpl; auto. Qed.

(** C8.  Whatever codes the connector and the protocols deliver, the only
    codes the caller of [start] ever receives are [success] and
    [operation_failed]. *)
Theorem only_aggregate_result (s : session_seed) (h0 : hosts)
    (ds : list delivery) (y : system) (ec : code) :
  bootstrap s h0 ds = Some y →
  ec ∈ completions (trace (sys_world y)) →
  ec = success ∨ ec = operation_failed.
Proof.
  intros Hr Hin. unfold bootstrap in Hr.
  destruct (start_cases s h0) as [[_ Hst]|[Hs Hc]].
  - rewrite Hst in Hr. apply run_idle in Hr; [|reflexivity].
    destruct Hr as [_ ->]. simpl in Hin.
    apply list_elem_of_singleton in Hin. auto.
  - destruct (start_running s h0 Hs Hc) as (Hinv & _ & _ & _).
    pose proof (run_inv s h0 ds _ y Hinv Hr) as [_ _ _ Hdone].
    rewrite Hdone in Hin.
    destruct (decide (pending (sys_pipes y) = 0)).
    + apply list_elem_of_singleton in Hin. subst ec. unfold verdict.
      destruct (size h0 <? size (hosts_ (sys_world y))); auto.
    + apply not_elem_of_nil in Hin. contradiction.
Qed.

Lemma only_aggregate_result_witness :
  success = success ∨ success = operation_failed.
Proof.
  apply (only_aggregate_result demo demo_hosts demo_run demo_end success).
  - vm_compute. reflexivity.
  - vm_compute. apply list_elem_of_singleton. reflexivity.
Defined.

(** ** The protocols on a channel *)

Lemma starts_follow_version_step (seen : list channel) (t delta : list action) :
  starts_follow_version seen t = true →
  (∀ seen', starts_follow_version seen' delta = true) →
  starts_follow_version seen (t ++ delta) = true.
Proof.
  intros Ht Hd. revert seen Ht; induction t as [|a t IH]; intros seen Ht.
  - apply Hd.
  - destruct a as [h p|[]|peer|ec]; simpl in *; auto.
    apply andb_true_iff in Ht as [H1 H2]. rewrite H1. simpl. auto.
Qed.

Lemma starts_follow_version_complete (seen : list channel) (cs : list code) :
  starts_follow_version seen (act_complete <$> cs) = true.
Proof. induction cs; simpl; auto. Qed.

Lemma version_peers_app (a b : list action) :
  version_peers (a ++ b) = version_peers a ++ version_peers b.
Proof.
  unfold version_peers. rewrite attached_app, filter_app, fmap_app. reflexivity.
Qed.

(** What one delivery adds to the trace. *)
Lemma deliver_trace (s : session_seed) (d : delivery) (y y' : system) :
  deliver s d y = Some y' →
  ∃ delta, trace (sys_world y') = trace (sys_world y) ++ delta ∧
    (∀ seen, starts_follow_version seen delta = true) ∧
    channel_starts delta = opened [d] ∧
    version_peers delta = opened [d].
Proof.
  intros Hd. destruct d as [i ec peer|i ec|i k ec]; simpl in Hd;
    destruct (sys_pipes y !! i) as [[sd c|p sd c|p c|]|] eqn:Hl;
    try discriminate; injection Hd as <-; unfold settle; cbn [sys_world].
  - unfold handle_connected. simpl opened. destruct (is_error ec); cbn [fst].
    + destruct (invoke_trace c ec (sys_world y)) as [cs ->].
      exists (act_complete <$> cs). split; [reflexivity|].
      split; [intros; apply starts_follow_version_complete|].
      unfold version_peers.
      rewrite channel_starts_complete, attached_complete. auto.
    + eexists. split; [simpl; rewrite <- app_assoc; reflexivity|].
      split; [|split; reflexivity].
      intros seen. simpl. rewrite andb_true_r. apply bool_decide_eq_true_2.
      apply list_elem_of_here.
  - unfold handle_handshake. simpl opened. destruct (is_error ec); cbn [fst].
    + destruct (invoke_trace c ec (sys_world y)) as [cs ->].
      exists (act_complete <$> cs). split; [reflexivity|].
      split; [intros; apply starts_follow_version_complete|].
      unfold version_peers.
      rewrite channel_starts_complete, attached_complete. auto.
    + eexists. split; [simpl; rewrite <- app_assoc; reflexivity|].
      split; [|split; reflexivity]. reflexivity.
  - unfold protocol_seed_stopped. cbn [fst]. simpl opened.
    destruct (invoke_trace c ec (store k (sys_world y))) as [cs ->].
    exists (act_complete <$> cs). split; [reflexivity|].
    split; [intros; apply starts_follow_version_complete|].
    unfold version_peers.
    rewrite channel_starts_complete, attached_complete. auto.
Qed.

Lemma opened_app (a b : list delivery) : opened (a ++ b) = opened a ++ opened b.
Proof.
  induction a as [|[i ec peer|i ec|i k ec] a IH]; simpl; auto.
  destruct (is_error ec); simpl; rewrite IH; reflexivity.
Qed.

Lemma run_trace (s : session_seed) (ds : list delivery) (y y' : system) :
  run s ds y = Some y' →
  ∃ delta, trace (sys_world y') = trace (sys_world y) ++ delta ∧
    (∀ seen, starts_follow_version seen (trace (sys_world y)) = true →
             starts_follow_version seen (trace (sys_world y')) = true) ∧
    channel_starts delta = opened ds ∧
    version_peers delta = opened ds.
Proof.
  revert y; induction ds as [|d ds IH]; intros y Hr; simpl in Hr.
  - injection Hr as <-. exists []. rewrite app_nil_r. auto.
  - destruct (deliver s d y) as [y1|] eqn:Hd; [|discriminate].
    destruct (deliver_trace s d y y1 Hd) as (d1 & E1 & F1 & C1 & V1).
    destruct (IH y1 Hr) as (d2 & E2 & F2 & C2 & V2).
    exists (d1 ++ d2). split; [|split; [|split]].
    + rewrite E2, E1, app_assoc. reflexivity.
    + intros seen Hseen. apply F2. rewrite E1.
      apply starts_follow_version_step; auto.
    + change (d :: ds) with ([d] ++ ds).
      rewrite channel_starts_app, opened_app, C1, C2. reflexivity.
    + change (d :: ds) with ([d] ++ ds).
      rewrite version_peers_app, opened_app, V1, V2. reflexivity.
Qed.

Lemma start_seeds_quiet (single : handler) (rest : list endpoint) (y : system) :
  let y' := start_seeds single rest y in
  channel_starts (trace (sys_world y')) = channel_starts (trace (sys_world y)) ∧
  attached (trace (sys_world y')) = attached (trace (sys_world y)) ∧
  (Forall (λ st, is_connecting st = true) (sys_pipes y) →
   Forall (λ st, is_connecting st = true) (sys_pipes y')).
Proof.
  revert y; induction rest as [|seed rest IH]; intros y; simpl; [auto|].
  match goal with
  | |- context [start_seeds _ rest ?y1] => specialize (IH y1)
  end.
  simpl in IH. destruct IH as (Hc & Ha & Hf).
  rewrite Hc, Ha, channel_starts_app, attached_app. simpl.
  rewrite !app_nil_r. repeat split; try reflexivity.
  intros Hy. apply Hf. apply Forall_app. split; [exact Hy|].
  repeat constructor.
Qed.

Lemma start_quiet (s : session_seed) (h0 : hosts) :
  let y := start s caller_complete (initial h0) in
  channel_starts (trace (sys_world y)) = [] ∧
  attached (trace (sys_world y)) = [] ∧
  Forall (λ st, is_connecting st = true) (sys_pipes y).
Proof.
  unfold start.
  destruct (bool_decide (seeds_ s = []) || bool_decide (capacity (hosts_ (initial h0)) = 0)).
  - simpl. auto.
  - simpl.
    match goal with
    | |- context [start_seeds ?h ?l ?y1] =>
        destruct (start_seeds_quiet h l y1) as (Hc & Ha & Hf)
    end.
    rewrite Hc, Ha. simpl. auto.
Qed.

Lemma starts_follow_version_none (seen : list channel) (t : list action) :
  channel_starts t = [] → starts_follow_version seen t = true.
Proof.
  revert seen; induction t as [|[h p|[]|peer|ec] t IH]; intros seen H;
    simpl in *; auto. discriminate.
Qed.

(** C10.  [handle_connected] attaches [protocol_version] to the channel and
    only then starts the channel when the connect succeeded, and neither
    attaches a protocol nor starts the channel when it failed; so in every
    bootstrap each channel start follows the attachment of
    [protocol_version] to that channel, and the channels started are the
    channels of the successful connects. *)
Theorem version_attached_before_start (s : session_seed) (h0 : hosts)
    (ds : list delivery) (y : system) :
  bootstrap s h0 ds = Some y →
  (∀ ec peer seed complete w,
     let r := handle_connected s ec peer seed complete w in
     if is_error ec
     then r.2 = finished ∧
          channel_starts (trace r.1) = channel_starts (trace w) ∧
          attached (trace r.1) = attached (trace w)
     else r.2 = handshaking peer seed complete ∧
          trace r.1 = trace w ++
            [act_attach (protocol_version peer (handshake (timeouts_ s))
                           (self_ s) 0 false);
             act_channel_start peer]) ∧
  starts_follow_version [] (trace (sys_world y)) = true ∧
  channel_starts (trace (sys_world y)) = opened ds ∧
  version_peers (trace (sys_world y)) = opened ds.
Proof.
  intros Hr. split.
  - intros ec peer seed complete w. unfold handle_connected.
    destruct (is_error ec); simpl.
    + destruct (invoke_trace complete ec w) as [cs ->].
      rewrite channel_starts_app, attached_app.
      rewrite channel_starts_complete, attached_complete, !app_nil_r. auto.
    + rewrite <- app_assoc. auto.
  - unfold bootstrap in Hr.
    destruct (run_trace s ds _ y Hr) as (delta & E & F & C & V).
    destruct (start_quiet s h0) as (Hc & Ha & _).
    split; [|split].
    + apply F. apply starts_follow_version_none. exact Hc.
    + rewrite E, channel_starts_app, Hc, C. reflexivity.
    + rewrite E, version_peers_app, V. unfold version_peers at 1.
      rewrite Ha. reflexivity.
Qed.

Lemma version_attached_before_start_witness :
  (∀ ec peer seed complete w,
     let r := handle_connected demo ec peer seed complete w in
     if is_error ec
     then r.2 = finished ∧
          channel_starts (trace r.1) = channel_starts (trace w) ∧
          attached (trace r.1) = attached (trace w)
     else r.2 = handshaking peer seed complete ∧
          trace r.1 = trace w ++
            [act_attach (protocol_version peer (handshake (timeouts_ demo))
                           (self_ demo) 0 false);
             act_channel_start peer]) ∧
  starts_follow_version [] (trace (sys_world demo_end)) = true ∧
  channel_starts (trace (sys_world demo_end)) = opened demo_run ∧
  version_peers (trace (sys_world demo_end)) = opened demo_run.
Proof.
  apply (version_attached_before_start demo demo_hosts demo_run demo_end).
  vm_compute. reflexivity.
Defined.

Lemma deliver_germinating (s : session_seed) (d : delivery) (y y' : system) :
  germinating_attached s y → deliver s d y = Some y' →
  germinating_attached s y'.
Proof.
  intros Hg Hd. pose proof (deliver_trace s d y y' Hd) as (delta & E & _).
  assert (Hold : ∀ j peer c, sys_pipes y !! j = Some (germinating peer c) →
    act_attach (protocol_ping peer (heartbeat (timeouts_ s)))
      ∈ trace (sys_world y') ∧
    act_attach (protocol_seed peer (germination (timeouts_ s)) c (self_ s))
      ∈ trace (sys_world y')).
  { intros j peer c Hj. destruct (Hg j peer c Hj) as [H1 H2].
    rewrite E. split; apply elem_of_app; left; assumption. }
  clear E delta.
  destruct d as [i ec peer|i ec|i k ec]; simpl in Hd;
    destruct (sys_pipes y !! i) as [[sd c|p sd c|p c|]|] eqn:Hl;
    try discriminate; injection Hd as <-; unfold settle in *;
    intros j peer' c' Hj; cbn [sys_world sys_pipes] in *;
    (destruct (decide (i = j)) as [<-|Hij];
     [rewrite list_lookup_insert_eq in Hj by (eapply lookup_lt_Some; exact Hl)
     |rewrite list_lookup_insert_ne in Hj by exact Hij; eauto]).
  - unfold handle_connected in Hj. destruct (is_error ec); discriminate.
  - unfold handle_handshake in *. destruct (is_error ec); [discriminate|].
    simpl in *. injection Hj as <- <-.
    split; rewrite !elem_of_app, !list_elem_of_singleton; auto.
  - discriminate.
Qed.

Lemma run_germinating (s : session_seed) (ds : list delivery) (y y' : system) :
  germinating_attached s y → run s ds y = Some y' → germinating_attached s y'.
Proof.
  revert y; induction ds as [|d ds IH]; intros y Hg Hr; simpl in Hr.
  - injection Hr as <-. exact Hg.
  - destruct (deliver s d y) as [y1|] eqn:Hd; [|discriminate].
    eapply IH; [|exact Hr]. eapply deliver_germinating; eassumption.
Qed.

Lemma start_germinating (s : session_seed) (h0 : hosts) :
  germinating_attached s (start s caller_complete (initial h0)).
Proof.
  destruct (start_quiet s h0) as (_ & _ & Hf).
  intros i peer c Hl. rewrite Forall_lookup in Hf.
  specialize (Hf i _ Hl). discriminate.
Qed.

(** C9.  After a successful handshake [handle_handshake] attaches the ping
    protocol, which is given no handler of the session, and the seed
    protocol, which is given the completion handler of the seed; attaching
    them signals nothing.  In a running bootstrap, while the address
    exchange of a seed is pending, both protocols are attached, the slot
    of the seed is still awaited, the only delivery that can reach the
    session for that seed is the completion of the address exchange, and it
    signals the slot.  The session never detaches the ping protocol: it
    stays attached in every later state, also when the bootstrap has
    completed. *)
Theorem ping_never_signals (s : session_seed) (h0 : hosts)
    (ds : list delivery) (y : system) (i : nat) (peer : channel)
    (complete : handler) :
  seeds_ s ≠ [] → capacity h0 ≠ 0 →
  bootstrap s h0 ds = Some y →
  sys_pipes y !! i = Some (germinating peer complete) →
  let ping := protocol_ping peer (heartbeat (timeouts_ s)) in
  let exchange :=
    protocol_seed peer (germination (timeouts_ s)) complete (self_ s) in
  (∀ seed w,
     handle_handshake s success peer seed complete w =
       (emit (act_attach exchange) (emit (act_attach ping) w),
        germinating peer complete)) ∧
  protocol_handlers ping = [] ∧
  protocol_handlers exchange = [complete] ∧
  act_attach ping ∈ trace (sys_world y) ∧
  act_attach exchange ∈ trace (sys_world y) ∧
  awaited i (sys_world y) = 1 ∧ signals i ds = [] ∧
  (∀ d y', deliver s d y = Some y' → seed_index d = i →
     (∃ k ec, d = seeded i k ec) ∧
     signals i [d] = [exchange_completion] ∧
     awaited i (sys_world y') = 0) ∧
  (∀ ds' y', run s ds' y = Some y' → act_attach ping ∈ trace (sys_world y')).
Proof.
  intros Hs Hc Hr Hl ping exchange. unfold bootstrap in Hr.
  destruct (start_running s h0 Hs Hc) as (Hinv & _ & _ & _).
  pose proof (run_inv s h0 ds _ y Hinv Hr) as Hy.
  pose proof (run_germinating s ds _ y (start_germinating s h0) Hr i peer
                complete Hl) as [Hping Hseed].
  destruct (pending_slot s h0 y i _ Hy Hl) as (seed & t & Hsd & Ht & Hok).
  simpl in Hok. destruct Hok as [-> ->].
  assert (Ha : awaited i (sys_world y) = 1) by (unfold awaited; rewrite Ht; reflexivity).
  pose proof (slot_accounting s h0 ds y i seed Hs Hc Hr Hsd) as (_ & Hacc & _).
  split; [reflexivity|]. split; [reflexivity|]. split; [reflexivity|].
  split; [exact Hping|]. split; [exact Hseed|]. split; [exact Ha|].
  split; [destruct (signals i ds); [reflexivity|simpl in Hacc; lia]|].
  split.
  - intros d y' Hd Hi.
    pose proof (deliver_awaited s h0 d y y' i Hy Hd) as Hstep.
    destruct d as [j ec p|j ec|j k ec]; simpl in Hi; subst j; simpl in Hd;
      rewrite Hl in Hd; try discriminate.
    split; [eauto|]. simpl in *. rewrite bool_decide_eq_true_2 in * by reflexivity.
    split; [reflexivity|]. simpl in Hstep. lia.
  - intros ds' y' Hr'. destruct (run_trace s ds' y y' Hr') as (delta & E & _).
    rewrite E. apply elem_of_app. left. exact Hping.
Qed.

Lemma ping_never_signals_witness :
  let complete := slot demo demo_hosts 0 {| host := "a"; port := 1%N |} in
  let ping := protocol_ping 7 (heartbeat (timeouts_ demo)) in
  let exchange :=
    protocol_seed 7 (germination (timeouts_ demo)) complete (self_ demo) in
  (∀ seed w,
     handle_handshake demo success 7 seed complete w =
       (emit (act_attach exchange) (emit (act_attach ping) w),
        germinating 7 complete)) ∧
  protocol_handlers ping = [] ∧
  protocol_handlers exchange = [complete] ∧
  act_attach ping ∈ trace (sys_world demo_mid) ∧
  act_attach exchange ∈ trace (sys_world demo_mid) ∧
  awaited 0 (sys_world demo_mid) = 1 ∧
  signals 0 [connected 0 success 7; shaken 0 success] = [] ∧
  (∀ d y', deliver demo d demo_mid = Some y' → seed_index d = 0 →
     (∃ k ec, d = seeded 0 k ec) ∧
     signals 0 [d] = [exchange_completion] ∧
     awaited 0 (sys_world y') = 0) ∧
  (∀ ds' y', run demo ds' demo_mid = Some y' →
             act_attach ping ∈ trace (sys_world y')).
Proof.
  apply (ping_never_signals demo demo_hosts
           [connected 0 success 7; shaken 0 success] demo_mid 0 7
           (slot demo demo_hosts 0 {| host := "a"; port := 1%N |})).
  - discriminate.
  - discriminate.
  - vm_compute. reflexivity.
  - vm_compute. reflexivity.
Defined.

(** * The responder *)

Lemma sends_app (a b : list effect) : sends (a ++ b) = sends a ++ sends b.
Proof.
  induction a as [|[] a IH]; simpl; rewrite ?IH; reflexivity.
Qed.

Lemma receive_get_data_app (r : getx_responder) (a b : get_data_type)
    (node : channel) :
  receive_get_data r success (a ++ b) node =
  receive_get_data r success a node ++ receive_get_data r success b node.
Proof.
  unfold receive_get_data. simpl.
  induction a as [|v a IH]; simpl; [reflexivity|].
  rewrite <- app_assoc. f_equal. exact IH.
Qed.

Lemma resolve_sends (r : getx_responder) (inv : inventory_vector_type)
    (node : channel) :
  sends (resolve r inv node) = [] ∨
  ∃ m, sends (resolve r inv node) = [(node, m)] ∧ resolves r inv m.
Proof.
  unfold resolve, resolves, pool_tx, chain_tx, send_block.
  destruct (inv_type inv); simpl.
  - destruct (txpool_ r (inv_hash inv)) as [[] tx]; simpl;
      try (right; eexists; split; [reflexivity|]; eexists; split;
           [reflexivity|]; left; reflexivity);
      destruct (chain_tx_ r (inv_hash inv)) as [[] tx']; simpl; auto;
      right; eexists; (split; [reflexivity|]); eexists;
      (split; [reflexivity|]); right; reflexivity.
  - destruct (chain_block_ r (inv_hash inv)) as [[] blk]; simpl; auto.
    right. eexists. split; [reflexivity|]. eexists. split; reflexivity.
Qed.

Lemma resolve_without_errors (r : getx_responder)
    (inv : inventory_vector_type) (node : channel) :
  resolve (without_errors r) inv node = resolve r inv node.
Proof.
  unfold resolve, pool_tx, chain_tx, send_block. simpl.
  destruct (inv_type inv).
  - destruct (is_error (txpool_ r (inv_hash inv)).1);
      destruct (is_error (chain_tx_ r (inv_hash inv)).1); reflexivity.
  - destruct (is_error (chain_block_ r (inv_hash inv)).1); reflexivity.
Qed.

(** C6.  For an inventory vector of kind transaction the responder asks the
    transaction pool first and, if the pool has the transaction, sends it to
    the requesting connection; if the pool does not have it (a miss or a
    query error, alike) it asks the transaction store of the blockchain
    and sends what is found; if that has it neither, nothing is sent, in
    particular no negative reply. *)
Theorem transaction_pool_then_chain (r : getx_responder) (h : hash_digest)
    (node : channel) :
  let inv := {| inv_type := inventory_transaction; inv_hash := h |} in
  resolve r inv node =
    (if is_error (txpool_ r h).1
     then if is_error (chain_tx_ r h).1
          then [fetched_pool h; fetched_chain_transaction h]
          else [fetched_pool h; fetched_chain_transaction h;
                sent node (message_transaction (chain_tx_ r h).2)]
     else [fetched_pool h; sent node (message_transaction (txpool_ r h).2)]) ∧
  resolve (without_errors r) inv node = resolve r inv node ∧
  ∀ node' inv', (node', message_not_found inv') ∉ sends (resolve r inv node).
Proof.
  intros inv. split; [|split].
  - unfold resolve, pool_tx, chain_tx. simpl.
    destruct (is_error (txpool_ r h).1); [|reflexivity].
    destruct (is_error (chain_tx_ r h).1); reflexivity.
  - apply resolve_without_errors.
  - intros node' inv' Hin.
    destruct (resolve_sends r inv node) as [E|(m & E & Hm)]; rewrite E in Hin.
    + apply not_elem_of_nil in Hin. exact Hin.
    + apply list_elem_of_singleton in Hin. injection Hin as _ <-.
      destruct Hm as (tx & Htx & _). discriminate.
Qed.

(** C7.  Serving one request sends at most one message per inventory
    vector, each one the content the collaborators hold for that vector;
    a query error changes nothing compared with a miss; and the vectors
    are served one by one, whatever the outcome of the others: nothing is
    raised and nothing is skipped. *)
Theorem one_send_per_resolved_vector (r : getx_responder)
    (packet : get_data_type) (node : channel) :
  length (sends (receive_get_data r success packet node)) ≤ length packet ∧
  sends (receive_get_data r success packet node) =
    flat_map (λ inv, sends (resolve r inv node)) packet ∧
  (∀ inv, length (sends (resolve r inv node)) ≤ 1) ∧
  (∀ to m, (to, m) ∈ sends (receive_get_data r success packet node) →
     to = node ∧ ∃ inv, inv ∈ packet ∧ resolves r inv m) ∧
  receive_get_data (without_errors r) success packet node =
    receive_get_data r success packet node ∧
  (∀ before inv after, packet = before ++ inv :: after →
     receive_get_data r success packet node =
       receive_get_data r success before node ++ resolve r inv node ++
       receive_get_data r success after node).
Proof.
  assert (Hone : ∀ inv, length (sends (resolve r inv node)) ≤ 1).
  { intros inv. destruct (resolve_sends r inv node) as [->|(m & -> & _)];
      simpl; lia. }
  assert (Hflat : sends (receive_get_data r success packet node) =
                  flat_map (λ inv, sends (resolve r inv node)) packet).
  { unfold receive_get_data. simpl.
    induction packet as [|v p IH]; simpl; [reflexivity|].
    rewrite sends_app, IH. reflexivity. }
  split; [|split; [exact Hflat|split; [exact Hone|split; [|split]]]].
  - rewrite Hflat. clear Hflat.
    induction packet as [|v p IH]; simpl; [lia|].
    rewrite length_app. specialize (Hone v). lia.
  - intros to m. rewrite Hflat. clear Hflat.
    induction packet as [|v p IH]; simpl; intros Hin.
    + apply not_elem_of_nil in Hin. contradiction.
    + apply elem_of_app in Hin as [Hin|Hin].
      * destruct (resolve_sends r v node) as [E|(m' & E & Hm)];
          rewrite E in Hin.
        -- apply not_elem_of_nil in Hin. contradiction.
        -- apply list_elem_of_singleton in Hin. injection Hin as -> ->.
           split; [reflexivity|]. exists v. split; [apply list_elem_of_here|].
           exact Hm.
      * destruct (IH Hin) as (-> & inv & Hinv & Hm).
        split; [reflexivity|]. exists inv.
        split; [apply list_elem_of_further; exact Hinv|exact Hm].
  - clear Hflat. unfold receive_get_data. simpl.
    induction packet as [|v p IH]; simpl; [reflexivity|].
    rewrite resolve_without_errors, IH. reflexivity.
  - intros before inv after ->.
    rewrite receive_get_data_app. reflexivity.
Qed.

(** * The scenarios of section 8 of the spec *)

(** Three seeds, two fail at connect, one inserts five addresses. *)
Example three_seeds_growth :
  completions (trace (sys_world (default stopped
    (bootstrap demo demo_hosts
       [connected 1 (connect_error 0) 0; connected 2 (connect_error 0) 0;
        connected 0 success 7; shaken 0 success; seeded 0 5 success]))))
  = [success].
Proof. vm_compute. reflexivity. Qed.

(** The same with no new address. *)
Example three_seeds_no_growth :
  completions (trace (sys_world (default stopped
    (bootstrap demo demo_hosts
       [connected 1 (connect_error 0) 0; connected 2 (connect_error 0) 0;
        connected 0 success 7; shaken 0 success; seeded 0 0 success]))))
  = [operation_failed].
Proof. vm_compute. reflexivity. Qed.

(** Zero host capacity. *)
Example zero_capacity :
  start demo caller_complete (initial {| capacity := 0; size := 0 |}) =
  {| sys_world := {| hosts_ := {| capacity := 0; size := 0 |}; counters := [];
                     faults := 0; trace := [act_complete operation_failed] |};
     sys_pipes := [] |}.
Proof. reflexivity. Qed.

(** One transaction only in the pool, one only in the chain, one in
    neither: two sends. *)
Example three_vectors :
  let r := {| txpool_ := λ h, if (h =? 1)%N then (success, 11)
                              else (not_found, 0);
              chain_tx_ := λ h, if (h =? 2)%N then (success, 22)
                                else (operation_failed, 0);
              chain_block_ := λ _, (not_found, 0) |} in
  sends (receive_get_data r success
           [ {| inv_type := inventory_transaction; inv_hash := 1%N |};
             {| inv_type := inventory_transaction; inv_hash := 2%N |};
             {| inv_type := inventory_transaction; inv_hash := 3%N |} ] 9)
  = [(9, message_transaction 11); (9, message_transaction 22)].
Proof. reflexivity. Qed.

(** * Further properties of the session *)

(** ** What [start] leaves behind *)

Lemma start_seeds_trace (single : handler) (rest : list endpoint) (y : system) :
  let y' := start_seeds single rest y in
  trace (sys_world y') = trace (sys_world y) ++ (connect_to <$> rest) ∧
  hosts_ (sys_world y') = hosts_ (sys_world y) ∧
  faults (sys_world y') = faults (sys_world y) ∧
  length (counters (sys_world y')) =
    length (counters (sys_world y)) + length rest ∧
  ∃ sts, sys_pipes y' = sys_pipes y ++ sts ∧
         Forall2 (λ seed st, ∃ c, st = connecting seed c) rest sts.
Proof.
  revert y; induction rest as [|seed rest IH]; intros y; simpl.
  - rewrite app_nil_r. repeat split; auto.
    exists []. rewrite app_nil_r. split; [reflexivity|constructor].
  - match goal with
    | |- context [start_seeds _ rest ?y1] => specialize (IH y1)
    end.
    simpl in IH. destruct IH as (Ht & Hh & Hf & Hc & sts & Hp & Hsts).
    rewrite Ht, Hh, Hf, Hc, length_app. simpl.
    split; [rewrite <- app_assoc; reflexivity|].
    split; [reflexivity|]. split; [reflexivity|]. split; [lia|].
    eexists (_ :: sts). split.
    + rewrite Hp, <- app_assoc. reflexivity.
    + constructor; [eauto|exact Hsts].
Qed.

Lemma deliver_outcome (s : session_seed) (d : delivery) (y y' : system) :
  deliver s d y = Some y' →
  ∃ delta, trace (sys_world y') = trace (sys_world y) ++ delta ∧
           outcome_of s y y' d delta.
Proof.
  intros Hd. destruct d as [i ec peer|i ec|i k ec]; simpl in Hd;
    destruct (sys_pipes y !! i) as [[sd c|p sd c|p c|]|] eqn:Hl;
    try discriminate; injection Hd as <-; unfold settle; cbn [sys_world].
  - unfold handle_connected. destruct (is_error ec) eqn:He; cbn [fst snd].
    + destruct (invoke_trace c ec (sys_world y)) as [cs ->].
      eexists. split; [reflexivity|]. eapply connect_failed; eauto.
    + eexists. split; [simpl; rewrite <- app_assoc; reflexivity|].
      eapply connect_succeeded; eauto.
  - unfold handle_handshake. destruct (is_error ec) eqn:He; cbn [fst snd].
    + destruct (invoke_trace c ec (sys_world y)) as [cs ->].
      eexists. split; [reflexivity|]. eapply handshake_failed; eauto.
    + eexists. split; [simpl; rewrite <- app_assoc; reflexivity|].
      eapply handshake_succeeded; eauto.
  - unfold protocol_seed_stopped. cbn [fst snd].
    destruct (invoke_trace c ec (store k (sys_world y))) as [cs ->].
    eexists. split; [reflexivity|]. eapply exchange_completed; eauto.
Qed.

Lemma connects_complete (cs : list code) : connects (act_complete <$> cs) = [].
Proof. induction cs; simpl; auto. Qed.

Lemma outcome_connects (s : session_seed) (y y' : system) (d : delivery)
    (delta : list action) :
  outcome_of s y y' d delta → connects delta = [].
Proof. intros []; simpl; auto using connects_complete. Qed.

Lemma run_connects (s : session_seed) (ds : list delivery) (y y' : system) :
  run s ds y = Some y' →
  connects (trace (sys_world y')) = connects (trace (sys_world y)).
Proof.
  revert y; induction ds as [|d ds IH]; intros y Hr; simpl in Hr.
  - injection Hr as <-. reflexivity.
  - destruct (deliver s d y) as [y1|] eqn:Hd; [|discriminate].
    rewrite (IH y1 Hr).
    destruct (deliver_outcome s d y y1 Hd) as (delta & -> & Hout).
    rewrite connects_app, (outcome_connects _ _ _ _ _ Hout), app_nil_r.
    reflexivity.
Qed.

Lemma connects_connect_to (seeds : list endpoint) :
  connects (connect_to <$> seeds) = (λ e, (host e, port e)) <$> seeds.
Proof.
  unfold connect_to. induction seeds as [|e l IH]; simpl; [reflexivity|].
  f_equal. exact IH.
Qed.

Lemma completions_connect_to (seeds : list endpoint) :
  completions (connect_to <$> seeds) = [].
Proof. unfold connect_to. induction seeds as [|e l IH]; simpl; auto. Qed.

(** X7.  When the seed list is not empty and the capacity of the host set
    is not zero, [start] only fans out: it adds one connect per seed to
    the trace and nothing else (the completion handler is not invoked),
    leaves one pending connect callback per seed, bound to that seed,
    creates one counter per seed and one for the whole, and detects no
    misuse; this for every completion handler and every world. *)
Theorem start_fans_out (s : session_seed) (complete : handler) (w : world) :
  seeds_ s ≠ [] → capacity (hosts_ w) ≠ 0 →
  trace (sys_world (start s complete w)) =
    trace w ++ (connect_to <$> seeds_ s) ∧
  completions (trace (sys_world (start s complete w))) =
    completions (trace w) ∧
  Forall2 (λ seed st, ∃ c, st = connecting seed c)
    (seeds_ s) (sys_pipes (start s complete w)) ∧
  length (counters (sys_world (start s complete w))) =
    length (counters w) + 1 + length (seeds_ s) ∧
  faults (sys_world (start s complete w)) = faults w.
Proof.
  intros Hs Hc. unfold start.
  rewrite bool_decide_eq_false_2 by exact Hs.
  rewrite bool_decide_eq_false_2 by exact Hc. simpl.
  match goal with
  | |- context [start_seeds ?h ?l ?y1] =>
      destruct (start_seeds_trace h l y1) as (Ht & _ & Hf & Hn & sts & Hp & Hsts)
  end.
  simpl in *. rewrite Ht, Hf, Hn, Hp, length_app. simpl.
  rewrite completions_app, completions_connect_to, app_nil_r.
  repeat split; auto; lia.
Qed.

Lemma start_fans_out_witness :
  trace (sys_world (start demo caller_complete (initial demo_hosts))) =
    trace (initial demo_hosts) ++ (connect_to <$> seeds_ demo) ∧
  completions (trace (sys_world (start demo caller_complete (initial demo_hosts)))) =
    completions (trace (initial demo_hosts)) ∧
  Forall2 (λ seed st, ∃ c, st = connecting seed c)
    (seeds_ demo) (sys_pipes (start demo caller_complete (initial demo_hosts))) ∧
  length (counters (sys_world (start demo caller_complete (initial demo_hosts)))) =
    length (counters (initial demo_hosts)) + 1 + length (seeds_ demo) ∧
  faults (sys_world (start demo caller_complete (initial demo_hosts))) =
    faults (initial demo_hosts).
Proof.
  apply (start_fans_out demo caller_complete (initial demo_hosts));
    discriminate.
Defined.

(** X1.  In a bootstrap that passed the precondition check, whatever is
    delivered afterwards, the connections attempted are exactly the
    configured seeds, once each and in the order of the list: a seed that
    failed is not contacted again. *)
Theorem seeds_contacted_once (s : session_seed) (h0 : hosts)
    (ds : list delivery) (y : system) :
  seeds_ s ≠ [] → capacity h0 ≠ 0 →
  bootstrap s h0 ds = Some y →
  connects (trace (sys_world y)) = (λ e, (host e, port e)) <$> seeds_ s.
Proof.
  intros Hs Hc Hr. unfold bootstrap in Hr.
  rewrite (run_connects s ds _ y Hr).
  destruct (start_seeds_trace (single s h0) (seeds_ s)
    {| sys_world := (synchronize (bound_handle_stopped (size h0) caller_complete)
                       (length (seeds_ s)) "session_seed" true (initial h0)).2;
       sys_pipes := [] |}) as (Ht & _).
  unfold start. simpl.
  rewrite bool_decide_eq_false_2 by exact Hs.
  rewrite bool_decide_eq_false_2 by exact Hc. simpl.
  simpl in Ht. unfold single in Ht. rewrite Ht. apply connects_connect_to.
Qed.

Lemma seeds_contacted_once_witness :
  connects (trace (sys_world demo_end)) =
  (λ e, (host e, port e)) <$> seeds_ demo.
Proof.
  apply (seeds_contacted_once demo demo_hosts demo_run demo_end).
  - discriminate.
  - discriminate.
  - vm_compute. reflexivity.
Defined.

(** ** The host set *)

Lemma start_seeds_hosts (single : handler) (rest : list endpoint) (y : system) :
  hosts_ (sys_world (start_seeds single rest y)) = hosts_ (sys_world y).
Proof. apply (start_seeds_trace single rest y). Qed.

(** X2.  No function of the session changes the host set, whatever
    handler it is given and whatever code it receives: the session only
    reads its capacity and its size. *)
Theorem session_leaves_hosts_alone (s : session_seed) (complete : handler)
    (w : world) (ec : code) (peer : channel) (seed : endpoint) (n : nat) :
  hosts_ (sys_world (start s complete w)) = hosts_ w ∧
  hosts_ (start_connect seed complete w).1 = hosts_ w ∧
  hosts_ (handle_connected s ec peer seed complete w).1 = hosts_ w ∧
  hosts_ (handle_handshake s ec peer seed complete w).1 = hosts_ w ∧
  hosts_ (handle_stopped n complete w) = hosts_ w.
Proof.
  split; [|split; [|split; [|split]]].
  - unfold start.
    destruct (bool_decide (seeds_ s = []) || bool_decide (capacity (hosts_ w) = 0)).
    + apply invoke_hosts.
    + simpl. rewrite start_seeds_hosts. reflexivity.
  - reflexivity.
  - unfold handle_connected. destruct (is_error ec); simpl;
      [apply invoke_hosts|reflexivity].
  - unfold handle_handshake. destruct (is_error ec); simpl;
      [apply invoke_hosts|reflexivity].
  - rewrite handle_stopped_verdict. apply invoke_hosts.
Qed.

Lemma start_hosts (s : session_seed) (h0 : hosts) :
  hosts_ (sys_world (start s caller_complete (initial h0))) = h0.
Proof.
  unfold start.
  destruct (bool_decide (seeds_ s = [])
            || bool_decide (capacity (hosts_ (initial h0)) = 0)).
  - apply invoke_hosts.
  - simpl. rewrite start_seeds_hosts. reflexivity.
Qed.

Lemma hosts_after_cases (ds : list delivery) (h : hosts) :
  hosts_after ds h = h ∨ ∃ i k ec, seeded i k ec ∈ ds.
Proof.
  revert h; induction ds as [|[i ec peer|i ec|i k ec] ds IH]; intros h; simpl.
  - left. reflexivity.
  - destruct (IH h) as [E|(j & k & e & Hin)]; [left; exact E|].
    right. exists j, k, e. apply list_elem_of_further. exact Hin.
  - destruct (IH h) as [E|(j & k & e & Hin)]; [left; exact E|].
    right. exists j, k, e. apply list_elem_of_further. exact Hin.
  - right. exists i, k, ec. apply list_elem_of_here.
Qed.

(** X6.  The caller is told [success] only if the address exchange of at
    least one seed completed; in a bootstrap in which no address exchange
    completes the host set is as it was at [start] and, once every
    pipeline has finished, the one result is [operation_failed]. *)
Theorem success_needs_an_exchange (s : session_seed) (h0 : hosts)
    (ds : list delivery) (y : system) :
  bootstrap s h0 ds = Some y →
  (success ∈ completions (trace (sys_world y)) →
   ∃ i k ec, seeded i k ec ∈ ds) ∧
  ((∀ i k ec, seeded i k ec ∉ ds) →
   hosts_ (sys_world y) = h0 ∧
   (pending (sys_pipes y) = 0 →
    completions (trace (sys_world y)) = [operation_failed])).
Proof.
  intros Hr. unfold bootstrap in Hr.
  pose proof (run_hosts s ds _ y Hr) as Hh.
  rewrite (start_hosts s h0) in Hh.
  destruct (start_cases s h0) as [[_ E]|[Hs Hc]].
  - rewrite E in Hr. apply run_idle in Hr; [|reflexivity].
    destruct Hr as [-> ->]. simpl. split.
    + intros Hin. apply list_elem_of_singleton in Hin. discriminate.
    + auto.
  - destruct (start_running s h0 Hs Hc) as (Hinv & _ & _ & _).
    pose proof (run_inv s h0 ds _ y Hinv Hr) as [_ _ _ Hdone].
    rewrite Hdone, Hh. split.
    + intros Hin. destruct (hosts_after_cases ds h0) as [E|H]; [|exact H].
      rewrite E in Hin. destruct (decide (pending (sys_pipes y) = 0)).
      * apply list_elem_of_singleton in Hin. unfold verdict in Hin.
        rewrite Nat.ltb_irrefl in Hin. discriminate.
      * apply not_elem_of_nil in Hin. contradiction.
    + intros Hno. destruct (hosts_after_cases ds h0) as [E|(i & k & e & Hin)];
        [|destruct (Hno i k e Hin)].
      rewrite E. split; [reflexivity|]. intros Hz.
      rewrite decide_True by exact Hz. unfold verdict.
      rewrite Nat.ltb_irrefl. reflexivity.
Qed.

Lemma success_needs_an_exchange_witness :
  (success ∈ completions (trace (sys_world demo_end)) →
   ∃ i k ec, seeded i k ec ∈ demo_run) ∧
  ((∀ i k ec, seeded i k ec ∉ demo_run) →
   hosts_ (sys_world demo_end) = demo_hosts ∧
   (pending (sys_pipes demo_end) = 0 →
    completions (trace (sys_world demo_end)) = [operation_failed])).
Proof.
  apply (success_needs_an_exchange demo demo_hosts demo_run demo_end).
  vm_compute. reflexivity.
Defined.

(** ** The wiring of protocols to channels *)

Lemma weight_insert (f : stage → bool) (ps : list stage) (i : nat)
    (st st' : stage) :
  ps !! i = Some st →
  weight f (<[i := st']> ps) + (if f st then 1 else 0) =
  weight f ps + (if f st' then 1 else 0).
Proof.
  unfold weight.
  revert i; induction ps as [|p ps IH]; intros [|i] Hl; simpl in *;
    try discriminate.
  - injection Hl as ->. cbn. lia.
  - specialize (IH i Hl). unfold fmap in IH. lia.
Qed.

Lemma weight_length (f : stage → bool) (ps : list stage) :
  weight f ps ≤ length ps.
Proof.
  unfold weight. induction ps as [|p ps IH]; cbn in *; [lia|].
  destruct (f p); lia.
Qed.

Lemma weight_connecting (ps : list stage) :
  Forall (λ st, is_connecting st = true) ps → weight is_handshaking ps = 0.
Proof.
  unfold weight. induction 1 as [|st ps Hst _ IH]; cbn in *; [reflexivity|].
  destruct st; try discriminate. simpl. exact IH.
Qed.

Lemma protocols_follow_start_app (started : list channel) (a b : list action) :
  protocols_follow_start started (a ++ b) =
  protocols_follow_start started a &&
  protocols_follow_start (reverse (channel_starts a) ++ started) b.
Proof.
  revert started; induction a as [|[h p|[]|peer|ec] a IH]; intros started;
    simpl; rewrite ?IH, ?andb_assoc; try reflexivity.
  rewrite reverse_cons, <- app_assoc. reflexivity.
Qed.

Lemma protocols_follow_start_complete (started : list channel) (cs : list code) :
  protocols_follow_start started (act_complete <$> cs) = true.
Proof. induction cs; simpl; auto. Qed.

Lemma ping_peers_app (a b : list action) :
  ping_peers (a ++ b) = ping_peers a ++ ping_peers b.
Proof.
  unfold ping_peers. rewrite attached_app, filter_app, fmap_app. reflexivity.
Qed.

Lemma seed_peers_app (a b : list action) :
  seed_peers (a ++ b) = seed_peers a ++ seed_peers b.
Proof.
  unfold seed_peers. rewrite attached_app, filter_app, fmap_app. reflexivity.
Qed.

Lemma ping_peers_complete (cs : list code) : ping_peers (act_complete <$> cs) = [].
Proof. unfold ping_peers. rewrite attached_complete. reflexivity. Qed.

Lemma seed_peers_complete (cs : list code) : seed_peers (act_complete <$> cs) = [].
Proof. unfold seed_peers. rewrite attached_complete. reflexivity. Qed.

Lemma deliver_wiring (s : session_seed) (d : delivery) (y y' : system) :
  wiring s y → deliver s d y = Some y' → wiring s y'.
Proof.
  intros [Hcf Hpr Hst Hhs Hch Hpg] Hd.
  destruct (deliver_outcome s d y y' Hd) as (delta & E & Hout).
  split; rewrite ?E.
  - rewrite attached_app. apply Forall_app. split; [exact Hcf|].
    destruct Hout; rewrite ?attached_complete; simpl; repeat constructor;
      simpl; rewrite ?bool_decide_eq_true_2 by reflexivity; reflexivity.
  - rewrite ping_peers_app, seed_peers_app, Hpr. f_equal.
    destruct Hout;
      rewrite ?ping_peers_complete, ?seed_peers_complete; reflexivity.
  - rewrite protocols_follow_start_app, Hst. simpl.
    destruct Hout; rewrite ?protocols_follow_start_complete; simpl;
      try reflexivity.
    assert (peer ∈ reverse (channel_starts (trace (sys_world y))) ++ []).
    { rewrite app_nil_r. apply elem_of_reverse. eapply Hhs. eassumption. }
    rewrite !bool_decide_eq_true_2 by assumption. reflexivity.
  - intros j peer' sd' c' Hj. rewrite channel_starts_app. apply elem_of_app.
    destruct Hout as [i ec peer sd c cs Hl He Hp|i ec peer sd c Hl He Hp
                     |i ec peer sd c cs Hl He Hp|i ec peer sd c Hl He Hp
                     |i k ec peer c cs Hl Hp];
      rewrite Hp in Hj;
      (destruct (decide (i = j)) as [<-|Hij];
       [rewrite list_lookup_insert_eq in Hj by (eapply lookup_lt_Some; exact Hl)
       |rewrite list_lookup_insert_ne in Hj by exact Hij; left; eauto]);
      try discriminate.
    injection Hj as <- <- <-. right. simpl. apply list_elem_of_here.
  - rewrite channel_starts_app, length_app.
    destruct Hout as [i ec peer sd c cs Hl He Hp|i ec peer sd c Hl He Hp
                     |i ec peer sd c cs Hl He Hp|i ec peer sd c Hl He Hp
                     |i k ec peer c cs Hl Hp];
      rewrite Hp, length_insert, ?channel_starts_complete;
      match goal with
      | |- context [<[i := ?st']> _] =>
          pose proof (weight_insert is_connecting _ i _ st' Hl) as Hw
      end; simpl in *; lia.
  - rewrite channel_starts_app, ping_peers_app, !length_app.
    destruct Hout as [i ec peer sd c cs Hl He Hp|i ec peer sd c Hl He Hp
                     |i ec peer sd c cs Hl He Hp|i ec peer sd c Hl He Hp
                     |i k ec peer c cs Hl Hp];
      rewrite Hp, ?channel_starts_complete, ?ping_peers_complete;
      match goal with
      | |- context [<[i := ?st']> _] =>
          pose proof (weight_insert is_handshaking _ i _ st' Hl) as Hw
      end; simpl in *; lia.
Qed.

Lemma run_wiring (s : session_seed) (ds : list delivery) (y y' : system) :
  wiring s y → run s ds y = Some y' → wiring s y'.
Proof.
  revert y; induction ds as [|d ds IH]; intros y Hw Hr; simpl in Hr.
  - injection Hr as <-. exact Hw.
  - destruct (deliver s d y) as [y1|] eqn:Hd; [|discriminate].
    eapply IH; [|exact Hr]. eapply deliver_wiring; eassumption.
Qed.

Lemma protocols_follow_start_none (started : list channel) (t : list action) :
  attached t = [] → protocols_follow_start started t = true.
Proof.
  revert started; induction t as [|[h p|[]|peer|ec] t IH]; intros started H;
    simpl in *; auto; discriminate.
Qed.

Lemma start_wiring (s : session_seed) (h0 : hosts) :
  wiring s (start s caller_complete (initial h0)).
Proof.
  destruct (start_quiet s h0) as (Hc & Ha & Hf).
  split.
  - rewrite Ha. constructor.
  - unfold ping_peers, seed_peers. rewrite Ha. reflexivity.
  - apply protocols_follow_start_none. exact Ha.
  - intros i peer sd c Hl. rewrite Forall_lookup in Hf.
    specialize (Hf i _ Hl). discriminate.
  - rewrite Hc. simpl. pose proof (weight_length is_connecting
      (sys_pipes (start s caller_complete (initial h0)))). lia.
  - unfold ping_peers. rewrite Ha, Hc, (weight_connecting _ Hf). simpl. lia.
Qed.

Lemma run_length (s : session_seed) (ds : list delivery) (y y' : system) :
  run s ds y = Some y' → length (sys_pipes y') = length (sys_pipes y).
Proof.
  revert y; induction ds as [|d ds IH]; intros y Hr; simpl in Hr.
  - injection Hr as <-. reflexivity.
  - destruct (deliver s d y) as [y1|] eqn:Hd; [|discriminate].
    rewrite (IH y1 Hr).
    destruct (deliver_outcome s d y y1 Hd) as (delta & _ & Hout).
    destruct Hout as [i ec peer sd c cs Hl He Hp|i ec peer sd c Hl He Hp
                     |i ec peer sd c cs Hl He Hp|i ec peer sd c Hl He Hp
                     |i k ec peer c cs Hl Hp];
      rewrite Hp; apply length_insert.
Qed.

Lemma start_length (s : session_seed) (h0 : hosts) :
  length (sys_pipes (start s caller_complete (initial h0))) ≤ length (seeds_ s).
Proof.
  destruct (start_cases s h0) as [[_ E]|[Hs Hc]].
  - rewrite E. simpl. lia.
  - destruct (start_running s h0 Hs Hc) as ([[Hp _ _] _ _ _] & _). lia.
Qed.

(** X3.  Every protocol the session attaches during a bootstrap takes its
    arguments from the configuration of the session: [protocol_version]
    the handshake timeout, the own address, height [0] and no relay;
    [protocol_ping] the heartbeat; [protocol_seed] the germination timeout
    and the own address. *)
Theorem protocols_are_configured (s : session_seed) (h0 : hosts)
    (ds : list delivery) (y : system) :
  bootstrap s h0 ds = Some y →
  Forall (λ p, configured s p = true) (attached (trace (sys_world y))).
Proof.
  intros Hr. exact (wi_configured s y (run_wiring s ds _ y (start_wiring s h0) Hr)).
Qed.

Lemma protocols_are_configured_witness :
  Forall (λ p, configured demo p = true) (attached (trace (sys_world demo_end))).
Proof.
  apply (protocols_are_configured demo demo_hosts demo_run demo_end).
  vm_compute. reflexivity.
Defined.

(** X4.  In every bootstrap the ping protocol and the seed protocol are
    attached only to channels that were started before, and to the same
    channels in the same order: one seed protocol for every ping
    protocol. *)
Theorem exchange_follows_channel_start (s : session_seed) (h0 : hosts)
    (ds : list delivery) (y : system) :
  bootstrap s h0 ds = Some y →
  protocols_follow_start [] (trace (sys_world y)) = true ∧
  ping_peers (trace (sys_world y)) = seed_peers (trace (sys_world y)).
Proof.
  intros Hr.
  pose proof (run_wiring s ds _ y (start_wiring s h0) Hr) as Hw.
  split; [exact (wi_started s y Hw)|exact (wi_pairs s y Hw)].
Qed.

Lemma exchange_follows_channel_start_witness :
  protocols_follow_start [] (trace (sys_world demo_end)) = true ∧
  ping_peers (trace (sys_world demo_end)) =
  seed_peers (trace (sys_world demo_end)).
Proof.
  apply (exchange_follows_channel_start demo demo_hosts demo_run demo_end).
  vm_compute. reflexivity.
Defined.

(** X5.  A bootstrap starts at most one channel per configured seed and
    attaches no more ping protocols than it started channels, however the
    deliveries are ordered and whatever they report. *)
Theorem one_channel_per_seed (s : session_seed) (h0 : hosts)
    (ds : list delivery) (y : system) :
  bootstrap s h0 ds = Some y →
  length (channel_starts (trace (sys_world y))) ≤ length (seeds_ s) ∧
  length (ping_peers (trace (sys_world y))) ≤
    length (channel_starts (trace (sys_world y))).
Proof.
  intros Hr.
  pose proof (run_wiring s ds _ y (start_wiring s h0) Hr) as [_ _ _ _ Hch Hpg].
  pose proof (run_length s ds _ y Hr) as Hl.
  pose proof (start_length s h0). lia.
Qed.

Lemma one_channel_per_seed_witness :
  length (channel_starts (trace (sys_world demo_end))) ≤ length (seeds_ demo) ∧
  length (ping_peers (trace (sys_world demo_end))) ≤
    length (channel_starts (trace (sys_world demo_end))).
Proof.
  apply (one_channel_per_seed demo demo_hosts demo_run demo_end).
  vm_compute. reflexivity.
Defined.

(** ** The comparison and the joins *)

(** X8.  In a bootstrap that passed the precondition check the completion
    handler of the caller has been invoked, and so the growth comparison
    made, only if the top-level join awaits nothing and every seed has
    signalled its slot exactly once and finished its pipeline: never
    earlier. *)
Theorem joins_precede_comparison (s : session_seed) (h0 : hosts)
    (ds : list delivery) (y : system) :
  seeds_ s ≠ [] → capacity h0 ≠ 0 →
  bootstrap s h0 ds = Some y →
  completions (trace (sys_world y)) ≠ [] →
  (∀ i seed, seeds_ s !! i = Some seed →
     awaited i (sys_world y) = 0 ∧ length (signals i ds) = 1 ∧
     sys_pipes y !! i = Some finished) ∧
  top_awaited (sys_world y) = 0.
Proof.
  intros Hs Hc Hr Hdone.
  pose proof (slot_accounting s h0 ds y) as Hslot.
  unfold bootstrap in Hr.
  destruct (start_running s h0 Hs Hc) as (Hinv & _ & _ & _).
  pose proof (run_inv s h0 ds _ y Hinv Hr) as [_ (t & Ht & Hrem) _ Hd].
  destruct (decide (pending (sys_pipes y) = 0)) as [Hz|Hz]; [|congruence].
  split.
  - intros i seed Hseed.
    destruct (Hslot i seed Hs Hc Hr Hseed) as (_ & Ha & _ & Hfin & Hall & _).
    specialize (Hall Hz). split; [lia|]. split; [exact Hall|].
    apply Hfin. exact Hall.
  - unfold top_awaited. rewrite Ht. simpl. congruence.
Qed.

Lemma joins_precede_comparison_witness :
  (∀ i seed, seeds_ demo !! i = Some seed →
     awaited i (sys_world demo_end) = 0 ∧ length (signals i demo_run) = 1 ∧
     sys_pipes demo_end !! i = Some finished) ∧
  top_awaited (sys_world demo_end) = 0.
Proof.
  apply (joins_precede_comparison demo demo_hosts demo_run demo_end).
  - discriminate.
  - discriminate.
  - vm_compute. reflexivity.
  - discriminate.
Defined.
